(** * taxi_prediction.property: the SUUMO listing crawler

    A shallow embedding of [src/taxi_prediction/property.py] and the
    properties of its detail-page extractor, its listing walk and its row
    assembler.

    Python values are modelled as follows.
    - [str] is a sequence of Unicode code points, [list N]; literals are
      written [u "..."] and decoded from the UTF-8 bytes of the Rocq string.
    - [Optional[str]] is [option str]; Python truthiness of such a value is
      [truthy].
    - [OrderedDict] and the dict literal [LABEL_MAP], whose iteration order
      the code relies on, are association lists in insertion order.
    - the [set]s used for deduplication are [gset str].
    - a parsed document (bs4) is a tree of [PageElement]s; the HTML parser
      itself, [urljoin] and the remote server are parameters of the crawl;
      the parser and [urljoin] return a value or raise. *)

From stdpp Require Import base list gmap strings.
From Stdlib Require Import NArith Lia.

Open Scope N_scope.

(** ** Python strings *)

Definition str := list N.

(** UTF-8 decoding of a literal; [k] continuation bytes are still expected
    and [acc] holds the bits read so far. *)
Fixpoint decode (acc : N) (k : nat) (bs : list N) : str :=
  match bs with
  | [] => []
  | b :: bs' =>
    match k with
    | S k' =>
      let acc' := acc * 64 + (b mod 64) in
      match k' with
      | O => acc' :: decode 0 0%nat bs'
      | _ => decode acc' k' bs'
      end
    | O =>
      if b <? 128 then b :: decode 0 0%nat bs'
      else if b <? 224 then decode (b mod 32) 1%nat bs'
      else if b <? 240 then decode (b mod 16) 2%nat bs'
      else decode (b mod 8) 3%nat bs'
    end
  end.

Definition u (s : string) : str :=
  decode 0 0%nat (map Ascii.N_of_ascii (String.list_ascii_of_string s)).

(** [bool(s)] for [s : str] and for [s : Optional[str]]. *)
Definition nonempty (s : str) : bool :=
  match s with [] => false | _ :: _ => true end.

Definition truthy (o : option str) : bool :=
  match o with Some s => nonempty s | None => false end.

(** [s.startswith(p)] and [p in s]. *)
Fixpoint startswith (p s : str) : bool :=
  match p, s with
  | [], _ => true
  | _ :: _, [] => false
  | a :: p', b :: s' => (a =? b) && startswith p' s'
  end.

Fixpoint contains (p s : str) : bool :=
  startswith p s ||
  match s with
  | [] => false
  | _ :: s' => contains p s'
  end.

(** [sep.join(parts)]. *)
Fixpoint join (sep : str) (parts : list str) : str :=
  match parts with
  | [] => []
  | p :: ps =>
    match ps with
    | [] => p
    | _ :: _ => p ++ sep ++ join sep ps
    end
  end.

(** [str.isspace] on one code point; the same class is what [\s] matches
    and what [str.strip] removes. *)
Definition isspace (c : N) : bool :=
  ((9 <=? c) && (c <=? 13)) || ((28 <=? c) && (c <=? 32))
  || (c =? 133) || (c =? 160) || (c =? 5760)
  || ((8192 <=? c) && (c <=? 8202))
  || (c =? 8232) || (c =? 8233) || (c =? 8239) || (c =? 8287)
  || (c =? 12288).

Fixpoint lstrip (s : str) : str :=
  match s with
  | [] => []
  | c :: s' => if isspace c then lstrip s' else s
  end.

Definition strip (s : str) : str :=
  reverse (lstrip (reverse (lstrip s))).

(** [re.sub(r"\s+", " ", s)]: [prev_ws] tells that the code point before
    the current one belonged to a whitespace run already replaced. *)
Fixpoint collapse_ws (prev_ws : bool) (s : str) : str :=
  match s with
  | [] => []
  | c :: s' =>
    if isspace c
    then (if prev_ws then collapse_ws true s' else 32 :: collapse_ws true s')
    else c :: collapse_ws false s'
  end.

Definition normalize_text (text : str) : str :=
  strip (collapse_ws false text).

(** The whitespace-separated tokens of [s] ([re.findall(r"\S+", s)]), the
    way bs4 splits multi-valued attributes; [cur] is the token being read,
    reversed. *)
Fixpoint tokens_from (cur : str) (s : str) : list str :=
  match s with
  | [] => match cur with [] => [] | _ :: _ => [reverse cur] end
  | c :: s' =>
    if isspace c
    then match cur with
         | [] => tokens_from [] s'
         | _ :: _ => reverse cur :: tokens_from [] s'
         end
    else tokens_from (c :: cur) s'
  end.

Definition tokens (s : str) : list str := tokens_from [] s.

(** ** Dictionaries in insertion order *)

Section Dict.
Context {V : Type}.

(** [d.get(k)]: [None] when the key is absent. *)
Fixpoint getitem (d : list (str * V)) (k : str) : option V :=
  match d with
  | [] => None
  | (k', v') :: d' => if decide (k' = k) then Some v' else getitem d' k
  end.

(** [d[k] = v]: an existing key keeps its position, a new one goes last. *)
Fixpoint setitem (d : list (str * V)) (k : str) (v : V) : list (str * V) :=
  match d with
  | [] => [(k, v)]
  | (k', v') :: d' =>
    if decide (k' = k) then (k', v) :: d' else (k', v') :: setitem d' k v
  end.

Definition keys (d : list (str * V)) : list str := map fst d.
End Dict.

(** [OrderedDict.fromkeys(xs)]: every element of [xs] is assigned in turn,
    so a repeated key keeps the position of its first occurrence. *)
Definition fromkeys (xs : list str) : list (str * option str) :=
  fold_left (fun d x => setitem d x None) xs [].

(** ** Parsed documents (bs4)

    A [Tag] carries its name, its attributes with their raw values and its
    children in document order. The [BeautifulSoup] object itself is a
    [Tag] (named [[document]]) whose children are the top-level nodes.
    [Comment] stands for the string kinds that [get_text] leaves out. *)

#[warnings="-register-all"]
Inductive PageElement : Type :=
  | NavigableString (s : str)
  | Comment (s : str)
  | Tag (name : str) (attrs : list (str * str)) (contents : list PageElement).

(** [tag.descendants]: every node below [e], in document order. *)
Fixpoint descendants (e : PageElement) : list PageElement :=
  match e with
  | Tag _ _ cs => flat_map (fun c => c :: descendants c) cs
  | _ => []
  end.

Definition is_tag (name : str) (e : PageElement) : bool :=
  match e with
  | Tag n _ _ => bool_decide (n = name)
  | _ => false
  end.

(** [tag.get(k)]. *)
Definition get_attr (k : str) (e : PageElement) : option str :=
  match e with
  | Tag _ attrs _ => getitem attrs k
  | _ => None
  end.

(** [tag.find_all(name)] and [tag.find(name)]. *)
Definition find_all (name : str) (e : PageElement) : list PageElement :=
  List.filter (is_tag name) (descendants e).

Definition find (name : str) (e : PageElement) : option PageElement :=
  head (find_all name e).

(** [tag._all_strings(strip)] and [tag.get_text(sep, strip)]: with
    [strip] each string is stripped and empty results are dropped. *)
Definition all_strings (strip_ : bool) (e : PageElement) : list str :=
  flat_map
    (fun d =>
       match d with
       | NavigableString s =>
         if strip_
         then (if nonempty (strip s) then [strip s] else [])
         else [s]
       | _ => []
       end)
    (descendants e).

Definition get_text (sep : str) (strip_ : bool) (e : PageElement) : str :=
  join sep (all_strings strip_ e).

(** The CSS selectors the program uses: a compound selector is a type
    selector, a class selector, [name[attr]] or [name[attr='v']]; a
    selector is a compound one, possibly under a descendant combinator. *)
Inductive compound : Type :=
  | sel_type (name : str)
  | sel_class (cls : str)
  | sel_has_attr (name attr : str)
  | sel_attr_eq (name attr value : str).

Inductive selector : Type :=
  | sel_simple (c : compound)
  | sel_descendant (anc c : compound).

(** bs4 keeps [class] and [rel] as token lists; an attribute selector
    compares against the tokens joined by one space. *)
Definition multi_valued (attr : str) : bool :=
  bool_decide (attr = u "class") || bool_decide (attr = u "rel").

Definition css_value (attr raw : str) : str :=
  if multi_valued attr then join (u " ") (tokens raw) else raw.

Definition matches (c : compound) (e : PageElement) : bool :=
  match c with
  | sel_type name => is_tag name e
  | sel_class cls =>
    match get_attr (u "class") e with
    | Some raw => bool_decide (cls ∈ tokens raw)
    | None => false
    end
  | sel_has_attr name attr =>
    is_tag name e && bool_decide (is_Some (get_attr attr e))
  | sel_attr_eq name attr value =>
    is_tag name e &&
    match get_attr attr e with
    | Some raw => bool_decide (css_value attr raw = value)
    | None => false
    end
  end.

(** The descendants of [e] that match [c] and lie below an element
    matching [anc]; [inside] tells that such an element was met on the way
    down to [e]. *)
Fixpoint select_under (anc c : compound) (inside : bool) (e : PageElement)
  : list PageElement :=
  match e with
  | Tag _ _ cs =>
    flat_map
      (fun ch =>
         (if inside && matches c ch then [ch] else [])
           ++ select_under anc c (inside || matches anc ch) ch)
      cs
  | _ => []
  end.

(** [tag.select(sel)] and [tag.select_one(sel)]. *)
Definition select (sel : selector) (e : PageElement) : list PageElement :=
  match sel with
  | sel_simple c => List.filter (matches c) (descendants e)
  | sel_descendant anc c => select_under anc c false e
  end.

Definition select_one (sel : selector) (e : PageElement) : option PageElement :=
  head (select sel e).

(** ** The output schema and the synonym table *)

Definition COLUMNS : list str := Eval vm_compute in
  map u
    [ "url";
      "物件名";
      "価格";
      "所在地";
      "交通";
      "間取り";
      "専有面積";
      "バルコニー面積";
      "築年数（築年月）";
      "階数 / 所在階";
      "向き";
      "管理費";
      "修繕積立金";
      "その他費用";
      "引渡し時期";
      "取引態様";
      "情報更新日";
      "次回更新予定日（あれば）";
      "建物構造（RC / SRC 等）";
      "総戸数";
      "駐車場";
      "用途地域";
      "土地権利";
      "管理形態 / 管理会社";
      "リフォーム（有無・内容が取れれば）" ]%string.

(** The dict literal [LABEL_MAP], in declaration order (its keys are
    pairwise distinct, so the literal and the list agree). *)
Definition LABEL_MAP : list (str * str) := Eval vm_compute in
  map (fun kv : string * string => (u kv.1, u kv.2))
    [ ("物件名", "物件名");
      ("価格", "価格");
      ("販売価格", "価格");
      ("所在地", "所在地");
      ("交通", "交通");
      ("間取り", "間取り");
      ("専有面積", "専有面積");
      ("バルコニー面積", "バルコニー面積");
      ("バルコニー", "バルコニー面積");
      ("築年数", "築年数（築年月）");
      ("築年月", "築年数（築年月）");
      ("向き", "向き");
      ("管理費", "管理費");
      ("修繕積立金", "修繕積立金");
      ("その他費用", "その他費用");
      ("引渡", "引渡し時期");
      ("引渡し", "引渡し時期");
      ("取引態様", "取引態様");
      ("情報更新日", "情報更新日");
      ("次回更新日", "次回更新予定日（あれば）");
      ("次回更新予定日", "次回更新予定日（あれば）");
      ("構造", "建物構造（RC / SRC 等）");
      ("建物構造", "建物構造（RC / SRC 等）");
      ("総戸数", "総戸数");
      ("駐車場", "駐車場");
      ("用途地域", "用途地域");
      ("土地権利", "土地権利");
      ("管理形態", "管理形態 / 管理会社");
      ("管理会社", "管理形態 / 管理会社");
      ("リフォーム", "リフォーム（有無・内容が取れれば）");
      ("リノベーション", "リフォーム（有無・内容が取れれば）") ]%string.

(** The labels and columns the extractor names. *)
Definition L_floor : str := Eval vm_compute in u "所在階".
Definition L_total_floors : str := Eval vm_compute in u "階数".
Definition L_management_form : str := Eval vm_compute in u "管理形態".
Definition L_management_company : str := Eval vm_compute in u "管理会社".
Definition C_url : str := Eval vm_compute in u "url".
Definition C_name : str := Eval vm_compute in u "物件名".
Definition C_price : str := Eval vm_compute in u "価格".
Definition C_floor : str := Eval vm_compute in u "階数 / 所在階".
Definition C_management : str := Eval vm_compute in u "管理形態 / 管理会社".
Definition SEP : str := Eval vm_compute in u " / ".

(** ** The detail extractor *)

Definition row := list (str * option str).

(** [OrderedDict((col, None) for col in COLUMNS)]. *)
Definition empty_row : row :=
  fold_left (fun d col => setitem d col None) COLUMNS [].

(** [normalize_text(node.get_text(" ", strip=True))]. *)
Definition node_text (e : PageElement) : str :=
  normalize_text (get_text (u " ") true e).

(** The body of the first loop of [extract_pairs] for one [dl]. *)
Definition dl_pairs (dl : PageElement) : list (str * str) :=
  let dts := find_all (u "dt") dl in
  let dds := find_all (u "dd") dl in
  if decide (length dts = length dds)
  then
    flat_map
      (fun '(dt, dd) =>
         let label := node_text dt in
         let value := node_text dd in
         if nonempty label && nonempty value then [(label, value)] else [])
      (zip dts dds)
  else [].

(** The body of the second loop of [extract_pairs] for one [tr]. *)
Definition tr_pairs (tr : PageElement) : list (str * str) :=
  match find (u "th") tr, find (u "td") tr with
  | Some th, Some td =>
    let label := node_text th in
    let value := node_text td in
    if nonempty label && nonempty value then [(label, value)] else []
  | _, _ => []
  end.

Definition table_pairs (table : PageElement) : list (str * str) :=
  flat_map tr_pairs (select (sel_simple (sel_type (u "tr"))) table).

Definition extract_pairs (soup : PageElement) : list (str * str) :=
  flat_map dl_pairs (select (sel_simple (sel_type (u "dl"))) soup)
  ++ flat_map table_pairs (select (sel_simple (sel_type (u "table"))) soup).

Fixpoint pick_first_text (soup : PageElement) (selectors : list selector)
  : option str :=
  match selectors with
  | [] => None
  | sel :: rest =>
    match select_one sel soup with
    | Some node =>
      let text := node_text node in
      if nonempty text then Some text else pick_first_text soup rest
    | None => pick_first_text soup rest
    end
  end.

Definition NAME_SELECTORS : list selector :=
  [ sel_simple (sel_type (u "h1"));
    sel_descendant (sel_class (u "property_view")) (sel_type (u "h1"));
    sel_simple (sel_class (u "section_h1-title"));
    sel_simple (sel_class (u "suumo_h1")) ].

Definition PRICE_SELECTORS : list selector :=
  [ sel_descendant (sel_class (u "property_view")) (sel_class (u "price"));
    sel_simple (sel_class (u "price"));
    sel_simple (sel_class (u "bukkenTitle"));
    sel_descendant (sel_class (u "property_view")) (sel_type (u "b")) ].

(** [update_combined_field]: an empty value changes nothing; a value is
    appended after the separator to a field that holds a non-empty
    string, and replaces what the field holds otherwise. *)
Definition update_combined_field (data : row) (key value : str) : row :=
  if negb (nonempty value) then data
  else
    match getitem data key with
    | Some (Some old) =>
      if nonempty old
      then setitem data key (Some (old ++ SEP ++ value))
      else setitem data key (Some value)
    | _ => setitem data key (Some value)
    end.

(** The inner loop over [LABEL_MAP.items()]: the first key contained in
    the label assigns its field and ends the loop. *)
Fixpoint scan_synonyms (items : list (str * str)) (data : row)
    (normalized_label value : str) : row :=
  match items with
  | [] => data
  | (key, mapped) :: rest =>
    if contains key normalized_label
    then setitem data mapped (Some value)
    else scan_synonyms rest data normalized_label value
  end.

(** The variables the pair loop of [parse_detail_page] updates. *)
Record scan_state : Type := ScanState {
  data : row;
  floor_value : option str;
  total_floors : option str;
  management_parts : list str
}.

(** One iteration of [for label, value in pairs]. *)
Definition scan_pair (st : scan_state) (pair : str * str) : scan_state :=
  let '(label, value) := pair in
  let normalized_label := normalize_text label in
  if bool_decide (normalized_label = L_floor)
     || bool_decide (normalized_label = L_total_floors)
  then
    if bool_decide (normalized_label = L_floor)
    then ScanState (data st) (Some value) (total_floors st) (management_parts st)
    else ScanState (data st) (floor_value st) (Some value) (management_parts st)
  else if bool_decide (normalized_label = L_management_form)
          || bool_decide (normalized_label = L_management_company)
  then ScanState (data st) (floor_value st) (total_floors st)
                 (management_parts st ++ [value])
  else ScanState (scan_synonyms LABEL_MAP (data st) normalized_label value)
                 (floor_value st) (total_floors st) (management_parts st).

(** The two combination steps after the loop. *)
Definition combine_floor (st : scan_state) : row :=
  if truthy (floor_value st) || truthy (total_floors st)
  then
    let combined_floor :=
      join SEP (omap (fun v => if truthy v then v else None)
                     [floor_value st; total_floors st]) in
    setitem (data st) C_floor (Some combined_floor)
  else data st.

Definition combine_management (parts : list str) (d : row) : row :=
  match parts with
  | [] => d
  | _ :: _ => setitem d C_management (Some (join SEP (keys (fromkeys parts))))
  end.

(** The row [parse_detail_page] starts the pair loop with. *)
Definition initial_data (soup : PageElement) (url : str) : row :=
  let data := setitem empty_row C_url (Some url) in
  let name := pick_first_text soup NAME_SELECTORS in
  let price := pick_first_text soup PRICE_SELECTORS in
  let data := if truthy name then setitem data C_name name else data in
  if truthy price then setitem data C_price price else data.

(** The pair loop and the combination steps, from the extracted pairs. *)
Definition scan_pairs (d : row) (pairs : list (str * str)) : scan_state :=
  fold_left scan_pair pairs (ScanState d None None []).

Definition finish (st : scan_state) : row :=
  combine_management (management_parts st) (combine_floor st).

(** [parse_detail_page] after the call of the HTML parser. *)
Definition parse_detail_soup (soup : PageElement) (url : str) : row :=
  finish (scan_pairs (initial_data soup url) (extract_pairs soup)).

(** ** The network, the console and the clock

    What the run does to the outside is recorded in a [World]: the URLs
    requested so far, the warnings printed, and the number of
    [time.sleep(SLEEP_SECONDS)] calls. *)

Record Response : Type := { status_code : N; text : str }.

(** What [session.get] does: it returns a response or raises a
    [requests.RequestException]. *)
Inductive reply : Type :=
  | Replied (r : Response)
  | RequestException (msg : str).

Inductive exn : Type :=
  | RuntimeError (msg : str)
  | Exception (msg : str).

(** The three [[WARN]] lines the program prints. *)
Inductive warning : Type :=
  | WarnStatus (code : N) (url : str)
  | WarnRequestFailed (url msg : str)
  | WarnParseFailed (url : str) (e : exn).

Record World : Type := {
  requests : list str;
  console : list warning;
  sleeps : nat
}.

Definition world0 : World := {| requests := []; console := []; sleeps := 0 |}.

Definition requested (url : str) (w : World) : World :=
  {| requests := requests w ++ [url]; console := console w; sleeps := sleeps w |}.

Definition print (line : warning) (w : World) : World :=
  {| requests := requests w; console := console w ++ [line]; sleeps := sleeps w |}.

Definition sleep (w : World) : World :=
  {| requests := requests w; console := console w; sleeps := S (sleeps w) |}.

(** The result of a computation that may raise, or whose loop may not have
    ended within the fuel given. *)
Inductive outcome (A : Type) : Type :=
  | Returned (a : A) (w : World)
  | Raised (e : exn) (w : World)
  | OutOfFuel.
Arguments Returned {A} a w.
Arguments Raised {A} e w.
Arguments OutOfFuel {A}.

Definition MSG_fetch_failed : str := Eval vm_compute in
  u "Failed to fetch listing page: ".
Definition MSG_no_urls : str := Eval vm_compute in
  u "No detail URLs found. The page structure may have changed.".

(** [OrderedDict((col, None) for col in COLUMNS)] with [url] set: the row
    of a detail page that could not be fetched or parsed. *)
Definition placeholder (detail_url : str) : row :=
  setitem empty_row C_url (Some detail_url).

(** [pd.DataFrame(records, columns=COLUMNS)]: every record is read at the
    given columns, a missing key giving a null. *)
Definition DataFrame (records : list row) (columns : list str) : list row :=
  map (fun r => map (fun c => (c, default None (getitem r c))) columns) records.

Section Crawl.
(** The server answers a request from the requests made before it and
    the URL asked for; [html_parser] is [BeautifulSoup(_, "html.parser")],
    which may raise; so may [urljoin], which raises [ValueError] on a
    reference it cannot split (an unclosed bracketed host, for one). *)
Variable server : list str -> str -> reply.
Variable html_parser : str -> exn + PageElement.
Variable urljoin : str -> str -> exn + str.

Definition fetch_html (url : str) (w : World) : option str * World :=
  match server (requests w) url with
  | Replied response =>
    if status_code response =? 200
    then (Some (text response), requested url w)
    else (None, print (WarnStatus (status_code response) url) (requested url w))
  | RequestException msg =>
    (None, print (WarnRequestFailed url msg) (requested url w))
  end.

(** The loop of [extract_detail_urls] over the anchors; an exception of
    [urljoin] leaves the loop and the function. *)
Fixpoint detail_links (anchors : list PageElement) (base_url : str)
    (urls : list str) (seen : gset str) : exn + list str :=
  match anchors with
  | [] => inr urls
  | anchor :: rest =>
    match get_attr (u "href") anchor with
    | None => detail_links rest base_url urls seen
    | Some href =>
      if negb (nonempty href) then detail_links rest base_url urls seen
      else if negb (contains (u "/jj/bukken/") href)
              && negb (contains (u "/ms/") href)
              && negb (contains (u "/bukken/") href)
      then detail_links rest base_url urls seen
      else
        match urljoin base_url href with
        | inl e => inl e
        | inr full_url =>
          if decide (full_url ∈ seen)
          then detail_links rest base_url urls seen
          else detail_links rest base_url (urls ++ [full_url])
                            ({[ full_url ]} ∪ seen)
        end
    end
  end.

Definition extract_detail_urls (listing_html base_url : str)
  : exn + list str :=
  match html_parser listing_html with
  | inl e => inl e
  | inr soup =>
    detail_links (select (sel_simple (sel_has_attr (u "a") (u "href"))) soup)
                 base_url [] ∅
  end.

Definition NEXT_LABELS : list str :=
  [u "次へ"; u "次の30件"; u "次のページ"].

Definition extract_next_page_url (listing_html base_url : str)
  : exn + option str :=
  match html_parser listing_html with
  | inl e => inl e
  | inr soup =>
    let next_link :=
      match select_one (sel_simple (sel_attr_eq (u "a") (u "rel") (u "next"))) soup with
      | Some a => Some a
      | None =>
        head (List.filter
                (fun anchor =>
                   bool_decide (normalize_text (get_text [] false anchor)
                                  ∈ NEXT_LABELS))
                (find_all (u "a") soup))
      end in
    match next_link with
    | None => inr None
    | Some a =>
      match get_attr (u "href") a with
      | None => inr None
      | Some href =>
        if nonempty href
        then match urljoin base_url href with
             | inl e => inl e
             | inr next_url => inr (Some next_url)
             end
        else inr None
      end
    end
  end.

Definition parse_detail_page (html url : str) : exn + row :=
  match html_parser html with
  | inl e => inl e
  | inr soup => inr (parse_detail_soup soup url)
  end.

(** The inner loop of the walk: the URLs of one page not seen before. *)
Definition add_new (acc : list str * gset str) (url : str)
  : list str * gset str :=
  if decide (url ∈ acc.2) then acc else (acc.1 ++ [url], {[ url ]} ∪ acc.2).

(** The [while page_url:] loop of [scrape_suumo]; one unit of fuel per
    page. *)
Fixpoint walk (fuel : nat) (page_url : option str) (detail_urls : list str)
    (seen_detail_urls : gset str) (w : World) : outcome (list str) :=
  match page_url with
  | None => Returned detail_urls w
  | Some url =>
    if negb (nonempty url) then Returned detail_urls w
    else
      match fuel with
      | O => OutOfFuel
      | S fuel' =>
        let '(listing_html, w1) := fetch_html url w in
        match listing_html with
        | None => Raised (RuntimeError (MSG_fetch_failed ++ url)) w1
        | Some html =>
          if negb (nonempty html)
          then Raised (RuntimeError (MSG_fetch_failed ++ url)) w1
          else
            match extract_detail_urls html url with
            | inl e => Raised e w1
            | inr page_detail_urls =>
              let '(detail_urls', seen') :=
                fold_left add_new page_detail_urls
                          (detail_urls, seen_detail_urls) in
              match extract_next_page_url html url with
              | inl e => Raised e w1
              | inr next =>
                walk fuel' next detail_urls' seen'
                     (if truthy next then sleep w1 else w1)
              end
            end
        end
      end
  end.

(** One iteration of the loop over [enumerate(detail_urls, start=1)];
    [total] is [len(detail_urls)]. *)
Definition visit (total idx : nat) (detail_url : str) (w : World)
  : row * World :=
  let '(html, w1) := fetch_html detail_url w in
  match html with
  | None => (placeholder detail_url, w1)
  | Some html =>
    if negb (nonempty html) then (placeholder detail_url, w1)
    else
      let '(record, w2) :=
        match parse_detail_page html detail_url with
        | inr record => (record, w1)
        | inl exc =>
          (placeholder detail_url,
           print (WarnParseFailed detail_url exc) w1)
        end in
      (record, if decide (idx < total)%nat then sleep w2 else w2)
  end.

Fixpoint visit_all (total idx : nat) (detail_urls : list str)
    (records : list row) (w : World) : list row * World :=
  match detail_urls with
  | [] => (records, w)
  | detail_url :: rest =>
    let '(record, w') := visit total idx detail_url w in
    visit_all total (S idx) rest (records ++ [record]) w'
  end.

Definition scrape_suumo (fuel : nat) (listing_url : str) (w : World)
  : outcome (list row) :=
  match walk fuel (Some listing_url) [] ∅ w with
  | Returned detail_urls w1 =>
    match detail_urls with
    | [] => Raised (RuntimeError MSG_no_urls) w1
    | _ :: _ =>
      let '(records, w2) :=
        visit_all (length detail_urls) 1 detail_urls [] w1 in
      Returned (DataFrame records COLUMNS) w2
    end
  | Raised e w1 => Raised e w1
  | OutOfFuel => OutOfFuel
  end.
End Crawl.

(** ** Vocabulary of the statements

    The definitions below belong to the statements, not to the program:
    they name what a pair sequence holds, independently of the loop that
    processes it. *)

(** The four labels that the pair loop compares by equality. *)
Definition SPECIAL_LABELS : list str :=
  [L_floor; L_total_floors; L_management_form; L_management_company].

Definition special_label (normalized_label : str) : bool :=
  bool_decide (normalized_label ∈ SPECIAL_LABELS).

(** The first entry of the table, in declaration order, whose key occurs
    in the label. *)
Fixpoint first_match (items : list (str * str)) (normalized_label : str)
  : option (str * str) :=
  match items with
  | [] => None
  | (key, mapped) :: rest =>
    if contains key normalized_label then Some (key, mapped)
    else first_match rest normalized_label
  end.

(** The field a pair with this raw label reaches through the synonym
    table, if any. *)
Definition synonym_target (label : str) : option str :=
  if special_label (normalize_text label) then None
  else snd <$> first_match LABEL_MAP (normalize_text label).

(** The value of the last pair whose normalized label is [name]. *)
Definition held (name : str) (pairs : list (str * str)) : option str :=
  last (map snd
          (List.filter (fun p => bool_decide (normalize_text p.1 = name)) pairs)).

(** The values of the management-labelled pairs, in order. *)
Definition management_values (pairs : list (str * str)) : list str :=
  map snd
    (List.filter
       (fun p => bool_decide (normalize_text p.1 = L_management_form)
                 || bool_decide (normalize_text p.1 = L_management_company))
       pairs).

(** The elements of [xs], each kept at its first occurrence only. *)
Fixpoint dedup_first (xs : list str) : list str :=
  match xs with
  | [] => []
  | x :: rest =>
    x :: List.filter (fun y => negb (bool_decide (y = x))) (dedup_first rest)
  end.

(** An HTTP success status in the usual sense: the class 2xx. *)
Definition http_success (code : N) : bool := (200 <=? code) && (code <? 300).

(** The value of the last pair that reaches [field] through the synonym
    table. *)
Definition last_assigned (field : str) (pairs : list (str * str)) : option str :=
  last (map snd
          (List.filter (fun p => bool_decide (synonym_target p.1 = Some field))
                       pairs)).

(** Appending an element unless it is there already: what both the dict
    of [fromkeys] and the list of the walk do to their keys. *)
Definition append_new (ks : list str) (x : str) : list str :=
  if decide (x ∈ ks) then ks else ks ++ [x].

(** ** Sample documents

    Small detail pages, given as the trees the parser builds for them. *)

Definition cell (tag text : string) : PageElement :=
  Tag (u tag) [] [NavigableString (u text)].

Definition tr_of (cells : list PageElement) : PageElement :=
  Tag (u "tr") [] cells.

Definition labelled_row (label value : string) : PageElement :=
  tr_of [cell "th" label; cell "td" value].

Definition document (body : list PageElement) : PageElement :=
  Tag (u "[document]") [] body.

Definition table_page (rows : list PageElement) : PageElement :=
  document [Tag (u "table") [] rows].

Definition page_floors : PageElement :=
  table_page [labelled_row "所在階" "3階"; labelled_row "階数" "10階建"].

Definition page_floor_only : PageElement :=
  table_page [labelled_row "所在階" "3階"].

Definition page_total_only : PageElement :=
  table_page [labelled_row "階数" "10階建"].

Definition page_management : PageElement :=
  table_page [labelled_row "管理形態" "A社"; labelled_row "管理会社" "A社";
              labelled_row "管理会社" "B社"].

Definition row_two_labels : PageElement :=
  tr_of [cell "th" "価格"; cell "th" "間取り"; cell "td" "3980万円"].

Definition page_prices : PageElement :=
  table_page [labelled_row "価格" "3980万円"; labelled_row "販売価格" "4000万円"].

Definition page_overwritten : PageElement :=
  table_page [labelled_row "管理会社名" "X社"; labelled_row "管理会社名称" "Y社";
              labelled_row "管理会社" "Z社"].

Definition page_floor_like : PageElement :=
  table_page [labelled_row "所在階数" "3階"].

Definition page_company_name : PageElement :=
  table_page [labelled_row "管理会社名" "X社"; labelled_row "管理会社" "Z社"].

Definition sample_url : str := Eval vm_compute in u "https://suumo.jp/ms/chuko/tokyo/sc_minato/nc_1/".

(** ** Vocabulary of the crawl *)

(** What matters of a listing page to the walk: where it is, the detail
    URLs it links to and the URL of the page after it, if any. *)
Record listing_page : Type := {
  page_url : str;
  page_details : list str;
  page_next : option str
}.

Section CrawlVocabulary.
Variable server : list str -> str -> reply.
Variable html_parser : str -> exn + PageElement.
Variable urljoin : str -> str -> exn + str.

(** What [fetch_html] returns for [url] after the requests [history]. *)
Definition fetched (history : list str) (url : str) : option str :=
  (fetch_html server url
     {| requests := history; console := []; sleeps := 0 |}).1.

(** After the requests [history] the server sends the listing page [p]:
    the fetch succeeds with a body that is not empty, from which the
    program extracts the detail URLs and the next link of [p]. *)
Definition serves (history : list str) (p : listing_page) : Prop :=
  nonempty (page_url p) = true
  ∧ ∃ html,
      fetched history (page_url p) = Some html
      ∧ nonempty html = true
      ∧ extract_detail_urls html_parser urljoin html (page_url p)
        = inr (page_details p)
      ∧ extract_next_page_url html_parser urljoin html (page_url p)
        = inr (page_next p).

(** Starting from [start], the site sends the pages [pages] one after
    the other, each being the one its predecessor links to as next. *)
Fixpoint chain (history : list str) (start : option str)
    (pages : list listing_page) : Prop :=
  match pages with
  | [] => True
  | p :: rest =>
    start = Some (page_url p)
    ∧ serves history p
    ∧ chain (history ++ [page_url p]) (page_next p) rest
  end.

(** Where the walk stands after these pages. *)
Definition next_after (start : option str) (pages : list listing_page)
  : option str :=
  fold_left (fun _ p => page_next p) pages start.
End CrawlVocabulary.

(** A row as the run emits it for the detail page at [url]: the full
    column set as its keys, the URL in its URL field, and either nothing
    else or what the extractor read from a parsed page. *)
Definition row_of (url : str) (r : row) : Prop :=
  keys r = COLUMNS
  ∧ getitem r C_url = Some (Some url)
  ∧ (r = placeholder url ∨ ∃ soup, r = parse_detail_soup soup url).

(** ** A sample site *)

Definition LISTING_1 : str := Eval vm_compute in u "https://suumo.jp/list/".
Definition LISTING_2 : str := Eval vm_compute in u "https://suumo.jp/list/?page=2".
Definition DETAIL_1 : str := Eval vm_compute in u "https://suumo.jp/ms/1/".
Definition DETAIL_2 : str := Eval vm_compute in u "https://suumo.jp/ms/2/".
Definition DETAIL_3 : str := Eval vm_compute in u "https://suumo.jp/ms/3/".

Definition listing_html_1 : str := Eval vm_compute in
  u "<a href='/ms/1/'>A</a><a href='/ms/2/'>B</a><a rel='next' href='/list/?page=2'>次へ</a>".
Definition listing_html_2 : str := Eval vm_compute in
  u "<a href='/ms/2/'>B</a><a href='/ms/3/'>C</a>".
Definition detail_html_1 : str := Eval vm_compute in
  u "<table><tr><th>所在階</th><td>3階</td></tr><tr><th>階数</th><td>10階建</td></tr></table>".
Definition detail_html_3 : str := Eval vm_compute in u "<table><tr><th>価格</th>".

Definition anchor (attrs : list (string * string)) (text : string) : PageElement :=
  Tag (u "a") (map (fun kv : string * string => (u kv.1, u kv.2)) attrs)
      [NavigableString (u text)].

Definition listing_soup_1 : PageElement :=
  document [ anchor [("href", "/ms/1/")] "A";
             anchor [("href", "/ms/2/")] "B";
             anchor [("rel", "next"); ("href", "/list/?page=2")] "次へ" ]%string.

Definition listing_soup_2 : PageElement :=
  document [ anchor [("href", "/ms/2/")] "B";
             anchor [("href", "/ms/3/")] "C" ]%string.

(** The parser on the bodies of the sample site; it raises on the third
    detail page. *)
Definition sample_parser (html : str) : exn + PageElement :=
  if decide (html = listing_html_1) then inr listing_soup_1
  else if decide (html = listing_html_2) then inr listing_soup_2
  else if decide (html = detail_html_1) then inr page_floors
  else if decide (html = detail_html_3) then inl (Exception (u "parser failure"))
  else inr (document [NavigableString html]).

(** [urljoin] on the links of the sample sites: an absolute path is put
    after the origin of the site; a link that opens a bracketed host and
    does not close it raises, as [urllib.parse.urljoin] does. *)
Definition sample_urljoin (base href : str) : exn + str :=
  if startswith (u "//[") href && negb (contains (u "]") href)
  then inl (Exception (u "Invalid IPv6 URL"))
  else inr (u "https://suumo.jp" ++ href).

(** The sample site: two listing pages, the second answered as given, a
    detail page that parses, one that is missing and one that the parser
    rejects. *)
Definition sample_server (second_listing : reply) (history : list str)
    (url : str) : reply :=
  if decide (url = LISTING_1)
  then Replied {| status_code := 200; text := listing_html_1 |}
  else if decide (url = LISTING_2) then second_listing
  else if decide (url = DETAIL_1)
  then Replied {| status_code := 200; text := detail_html_1 |}
  else if decide (url = DETAIL_2)
  then Replied {| status_code := 404; text := u "Not Found" |}
  else if decide (url = DETAIL_3)
  then Replied {| status_code := 200; text := detail_html_3 |}
  else RequestException (u "connection refused").

Definition second_listing_ok : reply :=
  Replied {| status_code := 200; text := listing_html_2 |}.

Definition second_listing_unavailable : reply :=
  Replied {| status_code := 503; text := u "Service Unavailable" |}.

(** The second listing page answered with a body the parser rejects. *)
Definition unparsable_listing : reply :=
  Replied {| status_code := 200; text := detail_html_3 |}.

(** A server that answers every request with 203 and a body. *)
Definition server_203 (history : list str) (url : str) : reply :=
  Replied {| status_code := 203; text := detail_html_1 |}.

Definition sample_pages : list listing_page :=
  [ {| page_url := LISTING_1; page_details := [DETAIL_1; DETAIL_2];
       page_next := Some LISTING_2 |};
    {| page_url := LISTING_2; page_details := [DETAIL_2; DETAIL_3];
       page_next := None |} ].

(** The rows and the final state of the run over the sample site. *)
Definition sample_rows : list row :=
  [parse_detail_soup page_floors DETAIL_1; placeholder DETAIL_2;
   placeholder DETAIL_3].

Definition sample_final_world : World :=
  {| requests := [LISTING_1; LISTING_2; DETAIL_1; DETAIL_2; DETAIL_3];
     console := [WarnStatus 404 DETAIL_2;
                 WarnParseFailed DETAIL_3 (Exception (u "parser failure"))];
     sleeps := 2 |}.

(** ** Further sample documents *)

Definition page_remarks : PageElement :=
  table_page [labelled_row "備考" "なし"; labelled_row "所在階数" "3階"].

Definition page_titled : PageElement :=
  document [ Tag (u "h1") [] [NavigableString (u "  ")];
             Tag (u "div") [(u "class", u "section_h1-title main")]
                 [NavigableString (u " パークハウス  三田 ")];
             Tag (u "table") [] [labelled_row "物件名" "三田ハウス"] ].

(** The number of pages, among [pages], that name a page after them. *)
Definition followed (pages : list listing_page) : nat :=
  length (List.filter (fun p => truthy (page_next p)) pages).

(** ** Further sample sites *)

(** A site whose only listing page names itself as the next page. *)
Definition looping_html : str := Eval vm_compute in
  u "<a href='/ms/1/'>A</a><a rel='next' href='/list/'>次へ</a>".

Definition looping_soup : PageElement :=
  document [ anchor [("href", "/ms/1/")] "A";
             anchor [("rel", "next"); ("href", "/list/")] "次へ" ]%string.

Definition looping_parser (html : str) : exn + PageElement := inr looping_soup.

Definition looping_server (history : list str) (url : str) : reply :=
  Replied {| status_code := 200; text := looping_html |}.

Definition looping_page : listing_page :=
  {| page_url := LISTING_1; page_details := [DETAIL_1];
     page_next := Some LISTING_1 |}.

(** A site whose listing page links to no detail page. *)
Definition bare_html : str := Eval vm_compute in u "<a href='/help/'>ヘルプ</a>".

Definition bare_soup : PageElement :=
  document [ anchor [("href", "/help/")] "ヘルプ" ]%string.

Definition bare_parser (html : str) : exn + PageElement := inr bare_soup.

Definition bare_server (history : list str) (url : str) : reply :=
  Replied {| status_code := 200; text := bare_html |}.

Definition bare_page : listing_page :=
  {| page_url := LISTING_1; page_details := []; page_next := None |}.

(** A server that answers 200 with an empty body, and one that is down. *)
Definition empty_body_server (history : list str) (url : str) : reply :=
  Replied {| status_code := 200; text := [] |}.

Definition down_server (history : list str) (url : str) : reply :=
  RequestException (u "connection refused").

(** ** Vocabulary of the listing pages *)

(** The hrefs that make an anchor a link to a detail page. *)
Definition is_detail_href (href : str) : bool :=
  nonempty href && (contains (u "/ms/") href || contains (u "/bukken/") href).

(** The hrefs of the anchors of a document, in document order. *)
Definition anchor_hrefs (soup : PageElement) : list str :=
  omap (get_attr (u "href"))
       (select (sel_simple (sel_has_attr (u "a") (u "href"))) soup).

(** A listing page with two links to one detail page, a help link and an
    unusable next link followed by a labelled one; and one whose second
    link opens a bracketed host that it does not close. *)
Definition listing_soup_3 : PageElement :=
  document [ anchor [("href", "/ms/1/")] "A";
             anchor [("href", "/help/")] "ヘルプ";
             anchor [("href", "/jj/bukken/2/")] "B";
             anchor [("href", "/ms/1/")] "A";
             anchor [("rel", "next"); ("href", "")] "»";
             anchor [("href", "/list/?page=2")] "次へ" ]%string.

Definition listing_parser_3 (html : str) : exn + PageElement := inr listing_soup_3.

Definition listing_soup_4 : PageElement :=
  document [ anchor [("href", "/ms/1/")] "A";
             anchor [("href", "//[/ms/2/")] "B";
             anchor [("href", "/ms/3/")] "C" ]%string.

Definition listing_parser_4 (html : str) : exn + PageElement := inr listing_soup_4.

(** ** Vocabulary of normalized text *)

(** Every whitespace of [s] is a single space standing alone; [prev_ws]
    tells that the code point before [s] is a whitespace. *)
Fixpoint single_spaced (prev_ws : bool) (s : str) : bool :=
  match s with
  | [] => true
  | c :: s' =>
    if isspace c then negb prev_ws && (c =? 32) && single_spaced true s'
    else single_spaced false s'
  end.

(** [s] does not begin with a whitespace. *)
Definition no_leading_space (s : str) : bool :=
  match s with
  | [] => true
  | c :: _ => negb (isspace c)
  end.

(** Trimmed text with single spaces: what [normalize_text] returns. *)
Definition normalized (s : str) : Prop :=
  single_spaced false s = true
  ∧ no_leading_space s = true
  ∧ no_leading_space (reverse s) = true.

(** A description list with two terms and their descriptions, and one
    with a term too many. *)
Definition dl_even : PageElement :=
  Tag (u "dl") [] [cell "dt" "間取り"; cell "dd" "3LDK";
                   cell "dt" "向き"; cell "dd" "南"].

Definition dl_odd : PageElement :=
  Tag (u "dl") [] [cell "dt" "間取り"; cell "dd" "3LDK"; cell "dt" "向き"].

(** A table that holds another table in its first row. *)
Definition inner_table : PageElement :=
  Tag (u "table") [] [labelled_row "価格" "3980万円"].

Definition outer_table : PageElement :=
  Tag (u "table") []
      [ tr_of [Tag (u "td") [] [inner_table]]; labelled_row "価格" "4000万円" ].

(** * Properties *)

(** ** Dictionaries *)

Section DictFacts.
Context {V : Type}.
Implicit Types (d : list (str * V)) (k : str) (v : V).

Lemma keys_setitem d k v :
  keys (setitem d k v) = if decide (k ∈ keys d) then keys d else keys d ++ [k].
Proof.
  unfold keys. induction d as [|[k' v'] d IH]; cbn [setitem map fst].
  - case_decide as Hin; [by apply elem_of_nil in Hin|done].
  - destruct (decide (k' = k)) as [->|Hne]; cbn [map fst].
    + rewrite decide_True; [done|]. by left.
    + rewrite IH. destruct (decide (k ∈ map fst d)) as [Hin|Hnin].
      * rewrite decide_True; [done|]. by right.
      * rewrite decide_False; [done|].
        intros [?|?]%elem_of_cons; [by subst|done].
Qed.

Lemma keys_setitem_elem d k v : k ∈ keys d → keys (setitem d k v) = keys d.
Proof. intros Hin. by rewrite keys_setitem, decide_True. Qed.

Lemma getitem_setitem_eq d k v : getitem (setitem d k v) k = Some v.
Proof.
  induction d as [|[k' v'] d IH]; cbn [setitem getitem].
  - by rewrite decide_True.
  - destruct (decide (k' = k)) as [->|Hne]; cbn [getitem].
    + by rewrite decide_True.
    + by rewrite decide_False.
Qed.

Lemma getitem_setitem_ne d k k' v :
  k ≠ k' → getitem (setitem d k v) k' = getitem d k'.
Proof.
  intros Hne. induction d as [|[k0 v0] d IH]; cbn [setitem getitem].
  - by rewrite decide_False.
  - destruct (decide (k0 = k)) as [->|Hne0]; cbn [getitem].
    + by rewrite !decide_False.
    + destruct (decide (k0 = k')); [done|apply IH].
Qed.

Lemma getitem_None d k : getitem d k = None ↔ k ∉ keys d.
Proof.
  unfold keys. induction d as [|[k0 v0] d IH]; cbn [getitem map fst].
  - split; [intros _ ?%elem_of_nil; done|done].
  - destruct (decide (k0 = k)) as [->|Hne].
    + split; [done|]. intros []. by left.
    + rewrite IH. split.
      * intros Hnin [?|?]%elem_of_cons; [by subst|done].
      * intros Hnin Hin. apply Hnin. by right.
Qed.
End DictFacts.

(** ** The synonym scan and one iteration of the pair loop *)

Lemma scan_synonyms_first_match items d nl v :
  scan_synonyms items d nl v =
  match first_match items nl with
  | Some (_, mapped) => setitem d mapped (Some v)
  | None => d
  end.
Proof.
  induction items as [|[key mapped] items IH]; cbn [scan_synonyms first_match].
  - done.
  - by destruct (contains key nl).
Qed.

Lemma first_match_Some items nl key mapped :
  first_match items nl = Some (key, mapped) →
  ∃ n, items !! n = Some (key, mapped) ∧ contains key nl = true
       ∧ ∀ n' k' m', (n' < n)%nat → items !! n' = Some (k', m') →
                     contains k' nl = false.
Proof.
  induction items as [|[k0 m0] items IH]; cbn [first_match]; [done|].
  destruct (contains k0 nl) eqn:Hc.
  - intros [= -> ->]. exists 0%nat. split_and!; [done|done|]. lia.
  - intros (n & Hn & Hk & Hfirst)%IH. exists (S n). split_and!; [done|done|].
    intros [|n'] k' m' Hlt; cbn.
    + by intros [= <- <-].
    + intros Hn'. eapply Hfirst; [|done]. lia.
Qed.

Lemma first_match_None items nl :
  first_match items nl = None →
  ∀ key mapped, (key, mapped) ∈ items → contains key nl = false.
Proof.
  induction items as [|[k0 m0] items IH]; cbn [first_match].
  - intros _ ?? ?%elem_of_nil. done.
  - destruct (contains k0 nl) eqn:Hc; [done|].
    intros Hnone key mapped [[= -> ->]|Hin]%elem_of_cons; [done|].
    by eapply IH.
Qed.

Lemma special_label_false nl :
  special_label nl = false →
  nl ≠ L_floor ∧ nl ≠ L_total_floors
  ∧ nl ≠ L_management_form ∧ nl ≠ L_management_company.
Proof.
  unfold special_label, SPECIAL_LABELS. intros Hs%bool_decide_eq_false.
  rewrite !not_elem_of_cons in Hs. tauto.
Qed.

(** Comparisons between the label constants are settled on the spot. *)
Ltac decide_labels :=
  repeat first
    [ rewrite bool_decide_eq_true_2 by reflexivity
    | rewrite bool_decide_eq_false_2 by discriminate ];
  cbn [orb andb negb].

Lemma scan_pair_floor st label value :
  normalize_text label = L_floor →
  scan_pair st (label, value) =
  ScanState (data st) (Some value) (total_floors st) (management_parts st).
Proof.
  intros Hl. unfold scan_pair. rewrite Hl.
  by rewrite (bool_decide_eq_true_2 (L_floor = L_floor)).
Qed.

Lemma scan_pair_total_floors st label value :
  normalize_text label = L_total_floors →
  scan_pair st (label, value) =
  ScanState (data st) (floor_value st) (Some value) (management_parts st).
Proof.
  intros Hl. unfold scan_pair. rewrite Hl.
  rewrite (bool_decide_eq_false_2 (L_total_floors = L_floor)); [|done].
  by rewrite (bool_decide_eq_true_2 (L_total_floors = L_total_floors)).
Qed.

Lemma scan_pair_management st label value :
  normalize_text label = L_management_form
  ∨ normalize_text label = L_management_company →
  scan_pair st (label, value) =
  ScanState (data st) (floor_value st) (total_floors st)
            (management_parts st ++ [value]).
Proof.
  intros Hl. unfold scan_pair.
  destruct Hl as [-> | ->]; by decide_labels.
Qed.

Lemma scan_pair_other st label value :
  special_label (normalize_text label) = false →
  scan_pair st (label, value) =
  ScanState
    (match first_match LABEL_MAP (normalize_text label) with
     | Some (_, mapped) => setitem (data st) mapped (Some value)
     | None => data st
     end)
    (floor_value st) (total_floors st) (management_parts st).
Proof.
  intros (H1 & H2 & H3 & H4)%special_label_false. unfold scan_pair.
  rewrite !bool_decide_eq_false_2 by done. cbn [orb].
  by rewrite scan_synonyms_first_match.
Qed.

(** ** The pair loop as a whole *)

Lemma last_cons_filter {A} (P : A → bool) (x : A) (l : list A) :
  last (List.filter P (x :: l)) =
  match last (List.filter P l) with
  | Some y => Some y
  | None => if P x then Some x else None
  end.
Proof.
  cbn [List.filter]. destruct (P x); [|by destruct (last _)].
  destruct (List.filter P l) as [|y l'] eqn:Hf; [done|].
  rewrite last_cons. by destruct (last (y :: l')).
Qed.

Lemma last_map {A B} (f : A → B) (l : list A) : last (map f l) = f <$> last l.
Proof.
  induction l as [|x [|y l] IH]; [done|done|].
  change (last (map f (y :: l)) = f <$> last (y :: l)). apply IH.
Qed.

Lemma held_cons name p pairs :
  held name (p :: pairs) =
  match held name pairs with
  | Some v => Some v
  | None => if bool_decide (normalize_text p.1 = name) then Some p.2 else None
  end.
Proof.
  unfold held. rewrite !last_map, last_cons_filter.
  destruct (last (List.filter _ pairs)); [done|].
  by destruct (bool_decide _).
Qed.

Lemma last_assigned_cons field p pairs :
  last_assigned field (p :: pairs) =
  match last_assigned field pairs with
  | Some v => Some v
  | None => if bool_decide (synonym_target p.1 = Some field) then Some p.2 else None
  end.
Proof.
  unfold last_assigned. rewrite !last_map, last_cons_filter.
  destruct (last (List.filter _ pairs)); [done|].
  by destruct (bool_decide _).
Qed.

(** What one iteration does, by the class of its label. *)
Lemma scan_pair_cases st label value :
  let nl := normalize_text label in
  (nl = L_floor ∧ scan_pair st (label, value) =
     ScanState (data st) (Some value) (total_floors st) (management_parts st))
  ∨ (nl = L_total_floors ∧ scan_pair st (label, value) =
     ScanState (data st) (floor_value st) (Some value) (management_parts st))
  ∨ ((nl = L_management_form ∨ nl = L_management_company)
     ∧ scan_pair st (label, value) =
       ScanState (data st) (floor_value st) (total_floors st)
                 (management_parts st ++ [value]))
  ∨ (special_label nl = false
     ∧ scan_pair st (label, value) =
       ScanState
         (match first_match LABEL_MAP nl with
          | Some (_, mapped) => setitem (data st) mapped (Some value)
          | None => data st
          end)
         (floor_value st) (total_floors st) (management_parts st)).
Proof.
  intros nl. destruct (special_label nl) eqn:Hs.
  - apply bool_decide_eq_true in Hs. unfold SPECIAL_LABELS in Hs.
    rewrite !elem_of_cons in Hs.
    destruct Hs as [H|[H|[H|[H|H]]]].
    + left. split; [done|]. by apply scan_pair_floor.
    + right; left. split; [done|]. by apply scan_pair_total_floors.
    + do 2 right; left. split; [by left|]. apply scan_pair_management. by left.
    + do 2 right; left. split; [by right|]. apply scan_pair_management. by right.
    + by apply elem_of_nil in H.
  - do 3 right. split; [done|]. by apply scan_pair_other.
Qed.

Lemma special_not_floor nl :
  special_label nl = false → bool_decide (nl = L_floor) = false.
Proof. intros (? & _)%special_label_false. by apply bool_decide_eq_false_2. Qed.

Lemma scan_pairs_floor_value pairs st :
  floor_value (fold_left scan_pair pairs st) =
  match held L_floor pairs with
  | Some v => Some v
  | None => floor_value st
  end.
Proof.
  revert st. induction pairs as [|[label value] pairs IH]; intros st; [done|].
  cbn [fold_left]. rewrite IH, held_cons. destruct (held L_floor pairs); [done|].
  cbn [fst snd].
  destruct (scan_pair_cases st label value) as [[Hl ->]|[[Hl ->]|[[Hl ->]|[Hl ->]]]];
    cbn [floor_value].
  - by rewrite bool_decide_eq_true_2.
  - rewrite Hl. by decide_labels.
  - destruct Hl as [-> | ->]; by decide_labels.
  - by rewrite special_not_floor.
Qed.

Lemma scan_pairs_total_floors pairs st :
  total_floors (fold_left scan_pair pairs st) =
  match held L_total_floors pairs with
  | Some v => Some v
  | None => total_floors st
  end.
Proof.
  revert st. induction pairs as [|[label value] pairs IH]; intros st; [done|].
  cbn [fold_left]. rewrite IH, held_cons.
  destruct (held L_total_floors pairs); [done|]. cbn [fst snd].
  destruct (scan_pair_cases st label value) as [[Hl ->]|[[Hl ->]|[[Hl ->]|[Hl ->]]]];
    cbn [total_floors].
  - rewrite Hl. by decide_labels.
  - by rewrite bool_decide_eq_true_2.
  - destruct Hl as [-> | ->]; by decide_labels.
  - apply special_label_false in Hl as (_ & ? & _).
    by rewrite bool_decide_eq_false_2.
Qed.

Lemma management_values_cons p pairs :
  management_values (p :: pairs) =
  (if bool_decide (normalize_text p.1 = L_management_form)
      || bool_decide (normalize_text p.1 = L_management_company)
   then [p.2] else []) ++ management_values pairs.
Proof.
  unfold management_values. cbn [List.filter].
  by destruct (_ || _).
Qed.

Lemma scan_pairs_management_parts pairs st :
  management_parts (fold_left scan_pair pairs st) =
  management_parts st ++ management_values pairs.
Proof.
  revert st. induction pairs as [|[label value] pairs IH]; intros st.
  - cbn. by rewrite app_nil_r.
  - cbn [fold_left]. rewrite IH, management_values_cons. cbn [fst snd].
    destruct (scan_pair_cases st label value) as [[Hl ->]|[[Hl ->]|[[Hl ->]|[Hl ->]]]];
      cbn [management_parts].
    + rewrite Hl. by decide_labels.
    + rewrite Hl. by decide_labels.
    + rewrite <- app_assoc. f_equal.
      destruct Hl as [-> | ->]; by decide_labels.
    + apply special_label_false in Hl as (_ & _ & ? & ?).
      by rewrite !bool_decide_eq_false_2.
Qed.

(** ** The shape of a row *)

(** Closed decidable facts about the tables are settled by evaluation. *)
Ltac by_evaluation := apply (bool_decide_unpack _); vm_compute; exact I.

Lemma LABEL_MAP_fields :
  Forall (fun kv : str * str => kv.2 ∈ COLUMNS) LABEL_MAP.
Proof. by_evaluation. Qed.

Lemma LABEL_MAP_never_floor :
  Forall (fun kv : str * str => kv.2 ≠ C_floor) LABEL_MAP.
Proof. by_evaluation. Qed.

Lemma keys_empty_row : keys empty_row = COLUMNS.
Proof. by vm_compute. Qed.

Lemma first_match_elem items nl key mapped :
  first_match items nl = Some (key, mapped) → (key, mapped) ∈ items.
Proof.
  intros (n & Hn & _)%first_match_Some. by eapply list_elem_of_lookup_2.
Qed.

Lemma first_match_field nl key mapped :
  first_match LABEL_MAP nl = Some (key, mapped) → mapped ∈ COLUMNS.
Proof.
  intros Hin%first_match_elem.
  by apply (proj1 (Forall_forall _ _) LABEL_MAP_fields) in Hin.
Qed.

Lemma keys_scan_pair st pair :
  keys (data st) = COLUMNS → keys (data (scan_pair st pair)) = COLUMNS.
Proof.
  intros Hk. destruct pair as [label value].
  destruct (scan_pair_cases st label value) as [[Hl ->]|[[Hl ->]|[[Hl ->]|[Hl ->]]]];
    cbn [data]; try done.
  destruct (first_match LABEL_MAP (normalize_text label)) as [[key mapped]|] eqn:Hm;
    [|done].
  rewrite keys_setitem_elem; [done|]. rewrite Hk. by eapply first_match_field.
Qed.

Lemma keys_scan_pairs pairs st :
  keys (data st) = COLUMNS → keys (data (fold_left scan_pair pairs st)) = COLUMNS.
Proof.
  revert st. induction pairs as [|p pairs IH]; intros st Hk; [done|].
  cbn [fold_left]. by apply IH, keys_scan_pair.
Qed.

Lemma keys_placeholder url : keys (placeholder url) = COLUMNS.
Proof.
  unfold placeholder. rewrite keys_setitem_elem; [apply keys_empty_row|].
  rewrite keys_empty_row. by_evaluation.
Qed.

Lemma keys_initial_data soup url : keys (initial_data soup url) = COLUMNS.
Proof.
  unfold initial_data. fold (placeholder url).
  assert (∀ (d : row) k v, keys d = COLUMNS → k ∈ COLUMNS →
                   keys (setitem d k v) = COLUMNS) as Hset.
  { intros d k v Hk Hin. rewrite keys_setitem_elem; [done|]. by rewrite Hk. }
  assert (C_name ∈ COLUMNS) as Hname by by_evaluation.
  assert (C_price ∈ COLUMNS) as Hprice by by_evaluation.
  pose proof (keys_placeholder url) as Hp.
  destruct (truthy (pick_first_text soup NAME_SELECTORS));
    destruct (truthy (pick_first_text soup PRICE_SELECTORS)); auto.
Qed.

Lemma keys_combine_floor st :
  keys (data st) = COLUMNS → keys (combine_floor st) = COLUMNS.
Proof.
  intros Hk. unfold combine_floor. destruct (_ || _); [|done].
  rewrite keys_setitem_elem; [done|]. rewrite Hk. by_evaluation.
Qed.

Lemma keys_combine_management parts d :
  keys d = COLUMNS → keys (combine_management parts d) = COLUMNS.
Proof.
  intros Hk. destruct parts; [done|]. cbn [combine_management].
  rewrite keys_setitem_elem; [done|]. rewrite Hk. by_evaluation.
Qed.

Lemma keys_finish st : keys (data st) = COLUMNS → keys (finish st) = COLUMNS.
Proof. intros Hk. by apply keys_combine_management, keys_combine_floor. Qed.

Lemma keys_parse_detail_soup soup url : keys (parse_detail_soup soup url) = COLUMNS.
Proof.
  unfold parse_detail_soup, scan_pairs.
  apply keys_finish, keys_scan_pairs. cbn [data]. apply keys_initial_data.
Qed.

(** ** The URL field *)

Lemma synonym_target_Some label field :
  synonym_target label = Some field →
  special_label (normalize_text label) = false
  ∧ ∃ key, first_match LABEL_MAP (normalize_text label) = Some (key, field).
Proof.
  unfold synonym_target. destruct (special_label _); [done|].
  destruct (first_match _ _) as [[key mapped]|]; [|done].
  intros [= <-]. eauto.
Qed.

Lemma synonym_target_None label :
  special_label (normalize_text label) = false →
  synonym_target label = None →
  first_match LABEL_MAP (normalize_text label) = None.
Proof.
  unfold synonym_target. intros ->. by destruct (first_match _ _).
Qed.

Lemma synonym_target_special label :
  normalize_text label = L_floor ∨ normalize_text label = L_total_floors
  ∨ normalize_text label = L_management_form
  ∨ normalize_text label = L_management_company →
  synonym_target label = None.
Proof.
  intros Hl. unfold synonym_target, special_label.
  rewrite (bool_decide_eq_true_2 (normalize_text label ∈ SPECIAL_LABELS)); [done|].
  unfold SPECIAL_LABELS. rewrite !elem_of_cons. tauto.
Qed.

(** Last write wins inside the loop: a field holds the value of the last
    pair that reached it through the synonym table, and what it held
    before the loop if there is none. *)
Lemma scan_pairs_getitem field pairs st :
  getitem (data (fold_left scan_pair pairs st)) field =
  match last_assigned field pairs with
  | Some v => Some (Some v)
  | None => getitem (data st) field
  end.
Proof.
  revert st. induction pairs as [|[label value] pairs IH]; intros st; [done|].
  cbn [fold_left]. rewrite IH, last_assigned_cons.
  destruct (last_assigned field pairs); [done|]. cbn [fst snd].
  destruct (scan_pair_cases st label value) as [[Hl ->]|[[Hl ->]|[[Hl ->]|[Hl ->]]]];
    cbn [data].
  1-3: rewrite synonym_target_special by tauto;
    by rewrite bool_decide_eq_false_2.
  unfold synonym_target. rewrite Hl.
    destruct (first_match LABEL_MAP (normalize_text label)) as [[key mapped]|];
      cbn [fmap option_fmap option_map snd].
    + destruct (decide (mapped = field)) as [->|Hne].
      * by rewrite bool_decide_eq_true_2, getitem_setitem_eq.
      * rewrite bool_decide_eq_false_2 by congruence.
        by rewrite getitem_setitem_ne.
    + by rewrite bool_decide_eq_false_2.
Qed.

(** ** First-occurrence deduplication *)

Lemma filter_filter_comm {A} (P Q : A → bool) (l : list A) :
  List.filter P (List.filter Q l) = List.filter Q (List.filter P l).
Proof.
  induction l as [|x l IH]; [done|]. cbn [List.filter].
  destruct (P x) eqn:HP, (Q x) eqn:HQ; cbn [List.filter];
    rewrite ?HP, ?HQ; by rewrite IH.
Qed.

Lemma filter_filter_absorb {A} (P Q : A → bool) (l : list A) :
  (∀ y, P y = true → Q y = true) →
  List.filter P (List.filter Q l) = List.filter P l.
Proof.
  intros HPQ. induction l as [|x l IH]; [done|]. cbn [List.filter].
  destruct (Q x) eqn:HQ; cbn [List.filter].
  - by rewrite IH.
  - destruct (P x) eqn:HP; [|done]. apply HPQ in HP. congruence.
Qed.

Lemma filter_pointwise {A} (P Q : A → bool) (l : list A) :
  (∀ y, P y = Q y) → List.filter P l = List.filter Q l.
Proof.
  intros HPQ. induction l as [|x l IH]; [done|]. cbn [List.filter].
  by rewrite HPQ, IH.
Qed.

Lemma elem_of_bool_filter {A} (P : A → bool) (l : list A) (x : A) :
  x ∈ List.filter P l ↔ x ∈ l ∧ P x = true.
Proof. rewrite !list_elem_of_In. apply filter_In. Qed.

Lemma dedup_first_filter P xs :
  dedup_first (List.filter P xs) = List.filter P (dedup_first xs).
Proof.
  induction xs as [|x xs IH]; [done|]. cbn [List.filter dedup_first].
  destruct (P x) eqn:HP; cbn [dedup_first List.filter].
  - by rewrite IH, filter_filter_comm.
  - rewrite IH. symmetry. apply filter_filter_absorb.
    intros y Hy. apply negb_true_iff, bool_decide_eq_false_2. congruence.
Qed.

Lemma elem_of_dedup_first xs x : x ∈ dedup_first xs ↔ x ∈ xs.
Proof.
  induction xs as [|y xs IH]; [done|]. cbn [dedup_first].
  rewrite !elem_of_cons, elem_of_bool_filter, IH.
  rewrite negb_true_iff, bool_decide_eq_false.
  destruct (decide (x = y)); tauto.
Qed.

Lemma NoDup_bool_filter {A} (P : A → bool) (l : list A) :
  NoDup l → NoDup (List.filter P l).
Proof.
  induction 1 as [|x l Hx Hl IH]; cbn [List.filter]; [constructor|].
  destruct (P x); [|done]. constructor; [|done].
  rewrite elem_of_bool_filter. tauto.
Qed.

Lemma NoDup_dedup_first xs : NoDup (dedup_first xs).
Proof.
  induction xs as [|x xs IH]; cbn [dedup_first]; constructor.
  - rewrite elem_of_bool_filter, negb_true_iff, bool_decide_eq_false. tauto.
  - by apply NoDup_bool_filter.
Qed.

Lemma filter_filter_and {A} (P Q : A → bool) (l : list A) :
  List.filter P (List.filter Q l) = List.filter (fun y => P y && Q y) l.
Proof.
  induction l as [|x l IH]; [done|]. cbn [List.filter].
  destruct (Q x) eqn:HQ; cbn [List.filter]; destruct (P x); cbn;
    by rewrite IH.
Qed.

Lemma fold_append_new xs ks :
  fold_left append_new xs ks =
  ks ++ dedup_first (List.filter (fun x => negb (bool_decide (x ∈ ks))) xs).
Proof.
  revert ks. induction xs as [|x xs IH]; intros ks.
  - cbn. by rewrite app_nil_r.
  - cbn [fold_left List.filter]. rewrite IH. unfold append_new.
    destruct (decide (x ∈ ks)) as [Hin|Hnin].
    + by rewrite (bool_decide_eq_true_2 _ Hin).
    + rewrite (bool_decide_eq_false_2 _ Hnin). cbn [negb dedup_first].
      rewrite <- app_assoc. cbn [app]. do 2 f_equal.
      rewrite <- dedup_first_filter. f_equal.
      rewrite filter_filter_and. apply filter_pointwise. intros y.
      destruct (decide (y = x)) as [->|Hne].
      * rewrite (bool_decide_eq_true_2 (x = x)) by done. cbn.
        apply negb_false_iff, bool_decide_eq_true_2, elem_of_app.
        right. by left.
      * rewrite (bool_decide_eq_false_2 (y = x)) by done. cbn. f_equal.
        apply bool_decide_ext. rewrite elem_of_app, list_elem_of_singleton.
        tauto.
Qed.

Lemma keys_fromkeys xs : keys (fromkeys xs) = dedup_first xs.
Proof.
  unfold fromkeys.
  assert (∀ d : list (str * option str),
            keys (fold_left (fun d x => setitem d x None) xs d)
            = fold_left append_new xs (keys d)) as Hfold.
  { induction xs as [|x xs IH]; intros d; [done|].
    cbn [fold_left]. by rewrite IH, keys_setitem. }
  rewrite Hfold, fold_append_new. cbn [keys map app]. f_equal. clear Hfold.
  induction xs as [|x xs IH]; [done|]. cbn [List.filter].
  rewrite bool_decide_eq_false_2 by apply not_elem_of_nil.
  cbn [negb]. by rewrite IH.
Qed.

(** ** The combination steps *)

Lemma getitem_combine_floor_ne st field :
  field ≠ C_floor → getitem (combine_floor st) field = getitem (data st) field.
Proof.
  intros Hne. unfold combine_floor. destruct (_ || _); [|done].
  by rewrite getitem_setitem_ne.
Qed.

Lemma getitem_combine_management_ne parts d field :
  field ≠ C_management → getitem (combine_management parts d) field = getitem d field.
Proof.
  intros Hne. destruct parts; [done|]. cbn [combine_management].
  by rewrite getitem_setitem_ne.
Qed.

Lemma getitem_combine_management_eq parts d :
  parts ≠ [] →
  getitem (combine_management parts d) C_management =
  Some (Some (join SEP (dedup_first parts))).
Proof.
  intros Hne. destruct parts as [|p parts]; [done|]. cbn [combine_management].
  by rewrite getitem_setitem_eq, keys_fromkeys.
Qed.

Lemma floor_ne_management : C_floor ≠ C_management.
Proof. done. Qed.

(** ** What [extract_pairs] returns *)

Lemma extract_pairs_nonempty soup :
  Forall (fun p : str * str => nonempty p.1 = true ∧ nonempty p.2 = true)
         (extract_pairs soup).
Proof.
  unfold extract_pairs. apply Forall_app. split.
  - apply Forall_flat_map, Forall_forall. intros dl _. unfold dl_pairs.
    case_decide; [|constructor].
    apply Forall_flat_map, Forall_forall. intros [dt dd] _.
    destruct (nonempty (node_text dt)) eqn:Hl, (nonempty (node_text dd)) eqn:Hv;
      cbn; by repeat constructor.
  - apply Forall_flat_map, Forall_forall. intros table _. unfold table_pairs.
    apply Forall_flat_map, Forall_forall. intros tr _. unfold tr_pairs.
    destruct (find (u "th") tr) as [th|]; [|constructor].
    destruct (find (u "td") tr) as [td|]; [|constructor].
    destruct (nonempty (node_text th)) eqn:Hl, (nonempty (node_text td)) eqn:Hv;
      cbn; by repeat constructor.
Qed.

Lemma held_elem name pairs v :
  held name pairs = Some v → ∃ label, (label, v) ∈ pairs.
Proof.
  unfold held. rewrite last_map.
  destruct (last (List.filter _ pairs)) as [[label v']|] eqn:Hlast; [|done].
  intros [= <-]. exists label.
  apply last_Some in Hlast as [l' Hl'].
  assert ((label, v') ∈ List.filter
            (fun p : str * str => bool_decide (normalize_text p.1 = name)) pairs)
    as Hin.
  { rewrite Hl'. apply elem_of_app. right. by left. }
  by apply elem_of_bool_filter in Hin as [? _].
Qed.

Lemma held_truthy soup name v :
  held name (extract_pairs soup) = Some v → nonempty v = true.
Proof.
  intros [label Hin]%held_elem.
  by apply (proj1 (Forall_forall _ _) (extract_pairs_nonempty soup)) in Hin as [_ ?].
Qed.

Lemma synonym_target_mapped label field :
  synonym_target label = Some field → field ∈ map snd LABEL_MAP.
Proof.
  intros (_ & key & Hm)%synonym_target_Some.
  apply first_match_elem in Hm.
  apply list_elem_of_fmap. by exists (key, field).
Qed.

Lemma last_assigned_unmapped field pairs :
  field ∉ map snd LABEL_MAP → last_assigned field pairs = None.
Proof.
  intros Hnot. induction pairs as [|p pairs IH]; [done|].
  rewrite last_assigned_cons, IH.
  rewrite bool_decide_eq_false_2; [done|].
  by intros ?%synonym_target_mapped.
Qed.

Lemma getitem_initial_data soup url field :
  field ≠ C_url → field ≠ C_name → field ≠ C_price →
  getitem (initial_data soup url) field = getitem empty_row field.
Proof.
  intros Hurl Hname Hprice. unfold initial_data.
  destruct (truthy (pick_first_text soup NAME_SELECTORS));
    destruct (truthy (pick_first_text soup PRICE_SELECTORS));
    by rewrite ?getitem_setitem_ne by done.
Qed.

(** The floor field of a parsed page, from the pairs the page holds. *)
Lemma parse_floor_field soup url :
  getitem (parse_detail_soup soup url) C_floor =
  Some match held L_floor (extract_pairs soup),
             held L_total_floors (extract_pairs soup) with
       | Some a, Some b => Some (a ++ SEP ++ b)
       | Some a, None => Some a
       | None, Some b => Some b
       | None, None => None
       end.
Proof.
  unfold parse_detail_soup, finish, scan_pairs.
  rewrite getitem_combine_management_ne by apply floor_ne_management.
  unfold combine_floor.
  rewrite scan_pairs_floor_value, scan_pairs_total_floors. cbn [floor_value total_floors].
  destruct (held L_floor (extract_pairs soup)) as [a|] eqn:Ha;
    destruct (held L_total_floors (extract_pairs soup)) as [b|] eqn:Hb;
    try (pose proof (held_truthy _ _ _ Ha) as Hta);
    try (pose proof (held_truthy _ _ _ Hb) as Htb);
    cbn [truthy omap list_omap]; rewrite ?Hta, ?Htb; cbn [orb];
    rewrite ?getitem_setitem_eq; try done.
  rewrite scan_pairs_getitem, last_assigned_unmapped.
  - cbn [data]. by rewrite getitem_initial_data.
  - apply (bool_decide_unpack _). by vm_compute.
Qed.

(** C6. Floor combination: when the pairs of a detail page yield the
    floor-of-building value "3階" and the total-floors value "10階建", the
    floor field of the row is "3階 / 10階建"; when they yield only one of
    the two, the field is that value alone, with no separator; when they
    yield neither, the field stays null. The value a page yields for a
    label is the one of the last pair carrying that label. *)
Theorem floor_combination (soup : PageElement) (url : str) :
  let pairs := extract_pairs soup in
  let floor_field := getitem (parse_detail_soup soup url) C_floor in
  (held L_floor pairs = Some (u "3階") →
   held L_total_floors pairs = Some (u "10階建") →
   floor_field = Some (Some (u "3階 / 10階建")))
  ∧ (∀ v, held L_floor pairs = Some v → held L_total_floors pairs = None →
          floor_field = Some (Some v))
  ∧ (∀ v, held L_floor pairs = None → held L_total_floors pairs = Some v →
          floor_field = Some (Some v))
  ∧ (held L_floor pairs = None → held L_total_floors pairs = None →
     floor_field = Some None).
Proof.
  cbn zeta. rewrite parse_floor_field. split_and!.
  - by intros -> ->.
  - by intros v -> ->.
  - by intros v -> ->.
  - by intros -> ->.
Qed.

Lemma floor_combination_witness :
  getitem (parse_detail_soup page_floors sample_url) C_floor
    = Some (Some (u "3階 / 10階建"))
  ∧ getitem (parse_detail_soup page_floor_only sample_url) C_floor
    = Some (Some (u "3階"))
  ∧ getitem (parse_detail_soup page_total_only sample_url) C_floor
    = Some (Some (u "10階建"))
  ∧ getitem (parse_detail_soup page_prices sample_url) C_floor = Some None.
Proof.
  split_and!.
  - apply (proj1 (floor_combination page_floors sample_url)); by vm_compute.
  - apply (proj1 (proj2 (floor_combination page_floor_only sample_url)));
      by vm_compute.
  - apply (proj1 (proj2 (proj2 (floor_combination page_total_only sample_url))));
      by vm_compute.
  - apply (proj2 (proj2 (proj2 (floor_combination page_prices sample_url))));
      by vm_compute.
Defined.

(** The management field of a parsed page that has management pairs. *)
Lemma parse_management_field soup url :
  management_values (extract_pairs soup) ≠ [] →
  getitem (parse_detail_soup soup url) C_management =
  Some (Some (join SEP (dedup_first (management_values (extract_pairs soup))))).
Proof.
  intros Hne. unfold parse_detail_soup, finish, scan_pairs.
  rewrite scan_pairs_management_parts. cbn [management_parts app].
  by apply getitem_combine_management_eq.
Qed.

(** C7. Management combination: the values of the management-labelled
    pairs are deduplicated, each kept at its first occurrence, and joined
    with the separator; for the values "A社", "A社", "B社" in that order the
    management field of the row is "A社 / B社". *)
Theorem management_combination (soup : PageElement) (url : str) :
  let values := management_values (extract_pairs soup) in
  let management_field := getitem (parse_detail_soup soup url) C_management in
  (values ≠ [] →
   management_field = Some (Some (join SEP (dedup_first values)))
   ∧ NoDup (dedup_first values)
   ∧ ∀ v, v ∈ dedup_first values ↔ v ∈ values)
  ∧ (values = [u "A社"; u "A社"; u "B社"] →
     management_field = Some (Some (u "A社 / B社"))).
Proof.
  cbn zeta. split.
  - intros Hne. split_and!.
    + by apply parse_management_field.
    + apply NoDup_dedup_first.
    + intros v. apply elem_of_dedup_first.
  - intros Hv. rewrite parse_management_field; rewrite Hv; done.
Qed.

Lemma management_combination_witness :
  getitem (parse_detail_soup page_management sample_url) C_management
  = Some (Some (u "A社 / B社"))
  ∧ getitem (parse_detail_soup page_company_name sample_url) C_management
    = Some (Some (join SEP (dedup_first [u "Z社"]))).
Proof.
  split.
  - apply (proj2 (management_combination page_management sample_url)).
    by vm_compute.
  - apply (proj1 (management_combination page_company_name sample_url)).
    by vm_compute.
Defined.

(** ** Last write wins *)

Lemma last_assigned_app_Some field l1 l2 v :
  last_assigned field l2 = Some v → last_assigned field (l1 ++ l2) = Some v.
Proof.
  intros Hl. induction l1 as [|p l1 IH]; [done|].
  cbn [app]. by rewrite last_assigned_cons, IH.
Qed.

Lemma last_assigned_not field l :
  Forall (fun p : str * str => synonym_target p.1 ≠ Some field) l →
  last_assigned field l = None.
Proof.
  induction 1 as [|p l Hp Hl IH]; [done|].
  by rewrite last_assigned_cons, IH, bool_decide_eq_false_2.
Qed.

Lemma mapped_ne_floor field : field ∈ map snd LABEL_MAP → field ≠ C_floor.
Proof.
  intros ((key & mapped) & -> & Hin)%list_elem_of_fmap.
  by apply (proj1 (Forall_forall _ _) LABEL_MAP_never_floor) in Hin.
Qed.

(** A field other than the two combined ones holds, in the final row,
    what the pair loop left in it. *)
Lemma getitem_finish st field :
  field ≠ C_floor →
  field ≠ C_management ∨ management_parts st = [] →
  getitem (finish st) field = getitem (data st) field.
Proof.
  intros Hfloor Hman. unfold finish.
  destruct Hman as [Hne | ->].
  - by rewrite getitem_combine_management_ne, getitem_combine_floor_ne.
  - cbn [combine_management]. by apply getitem_combine_floor_ne.
Qed.

(** C5 (as the code has it). Last write wins for the fields reached
    through the synonym table: when two pairs of a page reach the same
    field and no pair after the later one does, the field holds the later
    pair's value in the final row, provided the field is not the
    management field of a page that also has pairs labelled exactly
    管理形態 or 管理会社 (their combination is written after the loop). *)
Theorem last_write_wins (soup : PageElement) (url field : str)
    (before between after : list (str * str)) (earlier later : str * str) :
  extract_pairs soup = before ++ earlier :: between ++ later :: after →
  synonym_target earlier.1 = Some field →
  synonym_target later.1 = Some field →
  Forall (fun p : str * str => synonym_target p.1 ≠ Some field) after →
  (field = C_management → management_values (extract_pairs soup) = []) →
  getitem (parse_detail_soup soup url) field = Some (Some later.2).
Proof.
  intros Hpairs Hearlier Hlater Hafter Hman.
  unfold parse_detail_soup, scan_pairs.
  rewrite getitem_finish.
  - rewrite scan_pairs_getitem, Hpairs.
    rewrite (app_comm_cons between), app_assoc.
    erewrite last_assigned_app_Some; [done|].
    rewrite last_assigned_cons, (last_assigned_not _ _ Hafter).
    by rewrite bool_decide_eq_true_2.
  - by eapply mapped_ne_floor, synonym_target_mapped.
  - destruct (decide (field = C_management)) as [Heq|Hne]; [right|by left].
    rewrite scan_pairs_management_parts. cbn [management_parts app]. auto.
Qed.

Lemma last_write_wins_witness :
  getitem (parse_detail_soup page_prices sample_url) C_price
  = Some (Some (u "4000万円")).
Proof.
  apply (last_write_wins page_prices sample_url C_price [] [] []
           (u "価格", u "3980万円") (u "販売価格", u "4000万円")).
  - vm_compute. reflexivity.
  - vm_compute. reflexivity.
  - vm_compute. reflexivity.
  - constructor.
  - intros Heq. discriminate Heq.
Defined.

(** C5, the claim as stated fails: two pairs reach the management field
    through the synonym table, yet the final value is neither the later
    nor the earlier one but the value of the pair labelled 管理会社. *)
Lemma last_write_wins_counterexample :
  extract_pairs page_overwritten
  = [(u "管理会社名", u "X社"); (u "管理会社名称", u "Y社"); (u "管理会社", u "Z社")]
  ∧ synonym_target (u "管理会社名") = Some C_management
  ∧ synonym_target (u "管理会社名称") = Some C_management
  ∧ getitem (parse_detail_soup page_overwritten sample_url) C_management
    = Some (Some (u "Z社"))
  ∧ getitem (parse_detail_soup page_overwritten sample_url) C_management
    ≠ Some (Some (u "Y社")).
Proof. by vm_compute. Qed.

(** ** Labels that only contain a special label *)

Lemma special_labels_apart (s s' : str) :
  s ∈ SPECIAL_LABELS → s' ∈ SPECIAL_LABELS → s ≠ s' → contains s s' = false.
Proof.
  unfold SPECIAL_LABELS. rewrite !elem_of_cons, !elem_of_nil.
  intros [->|[->|[->|[->|[]]]]] [->|[->|[->|[->|[]]]]] Hne;
    first [done | by vm_compute].
Qed.

Lemma strictly_contains_not_special (s nl : str) :
  s ∈ SPECIAL_LABELS → contains s nl = true → nl ≠ s → special_label nl = false.
Proof.
  intros Hs Hc Hne. apply bool_decide_eq_false_2. intros Hnl.
  rewrite (special_labels_apart s nl) in Hc; [done|done|done|].
  by intros ->.
Qed.

Lemma first_match_is_Some items nl key mapped :
  (key, mapped) ∈ items → contains key nl = true →
  is_Some (first_match items nl).
Proof.
  intros Hin Hc. destruct (first_match items nl) eqn:Hm; [done|].
  by rewrite (first_match_None _ _ Hm _ _ Hin) in Hc.
Qed.

(** C10 (as the code has it). The four labels 所在階, 階数, 管理形態 and
    管理会社 are recognised by equality with the normalized label. A pair
    whose normalized label strictly contains one of them is neither held
    aside nor accumulated: it goes through the synonym scan, which
    overwrites the field of the first synonym key contained in the label,
    if there is one. There always is one when the label contains 管理形態
    or 管理会社, which are synonym keys themselves; 所在階 and 階数 are not,
    so such a label may match no key, and then nothing is written. On
    every page with a management-labelled pair, the combined management
    value is what the management field holds in the end, whatever the
    scan wrote there. *)
Theorem contained_special_label_is_scanned
    (st : scan_state) (label value s : str) :
  s ∈ SPECIAL_LABELS →
  contains s (normalize_text label) = true →
  normalize_text label ≠ s →
  scan_pair st (label, value) =
    ScanState
      (match first_match LABEL_MAP (normalize_text label) with
       | Some (_, mapped) => setitem (data st) mapped (Some value)
       | None => data st
       end)
      (floor_value st) (total_floors st) (management_parts st)
  ∧ (s = L_management_form ∨ s = L_management_company →
     is_Some (first_match LABEL_MAP (normalize_text label)))
  ∧ ∀ soup url,
      management_values (extract_pairs soup) ≠ [] →
      getitem (parse_detail_soup soup url) C_management =
      Some (Some (join SEP (dedup_first (management_values (extract_pairs soup))))).
Proof.
  intros Hs Hc Hne. split_and!.
  - apply scan_pair_other. by eapply strictly_contains_not_special.
  - intros [-> | ->].
    + eapply (first_match_is_Some _ _ L_management_form C_management); [|done].
      by_evaluation.
    + eapply (first_match_is_Some _ _ L_management_company C_management); [|done].
      by_evaluation.
  - intros soup url. apply parse_management_field.
Qed.

Lemma contained_special_label_is_scanned_witness :
  scan_pair (ScanState empty_row None None []) (u "管理会社名", u "X社")
  = ScanState (setitem empty_row C_management (Some (u "X社"))) None None []
  ∧ getitem (parse_detail_soup page_company_name sample_url) C_management
    = Some (Some (u "Z社")).
Proof.
  destruct (contained_special_label_is_scanned
              (ScanState empty_row None None []) (u "管理会社名") (u "X社")
              L_management_company)
    as (Hscan & _ & Hfinal).
  - by_evaluation.
  - by vm_compute.
  - by vm_compute.
  - split.
    + rewrite Hscan. by vm_compute.
    + rewrite Hfinal; by vm_compute.
Defined.

(** C10, the claim as stated fails for the floor labels: a pair labelled
    所在階数 strictly contains 所在階, is not held aside, and overwrites no
    field at all, since no synonym key occurs in its label. *)
Lemma contained_special_label_counterexample :
  contains L_floor (normalize_text (u "所在階数")) = true
  ∧ normalize_text (u "所在階数") ≠ L_floor
  ∧ first_match LABEL_MAP (normalize_text (u "所在階数")) = None
  ∧ scan_pair (ScanState (placeholder sample_url) None None [])
              (u "所在階数", u "3階")
    = ScanState (placeholder sample_url) None None []
  ∧ extract_pairs page_floor_like = [(u "所在階数", u "3階")]
  ∧ parse_detail_soup page_floor_like sample_url = placeholder sample_url.
Proof. split_and!; by vm_compute. Qed.

(** ** Declaration order of the synonym table *)

Lemma filter_two_hits {A} (P : A → bool) (l : list A) (i j : nat) (a b : A) :
  (i < j)%nat → l !! i = Some a → l !! j = Some b →
  P a = true → P b = true → (2 ≤ length (List.filter P l))%nat.
Proof.
  revert i j. induction l as [|x l IH]; intros i j Hlt Hi Hj Ha Hb; [done|].
  destruct i as [|i].
  - cbn in Hi. injection Hi as ->. destruct j as [|j]; [lia|]. cbn in Hj.
    cbn [List.filter]. rewrite Ha. cbn [length].
    assert (b ∈ List.filter P l) as Hin.
    { apply elem_of_bool_filter. split; [|done]. by eapply list_elem_of_lookup_2. }
    destruct (List.filter P l); [by apply elem_of_nil in Hin|]. cbn. lia.
  - destruct j as [|j]; [lia|]. cbn in Hi, Hj.
    assert (2 ≤ length (List.filter P l))%nat as Hlen
      by (eapply (IH i j); [lia|done..]).
    cbn [List.filter]. destruct (P x); cbn [length]; lia.
Qed.

Lemma two_keys_not_special nl i j k1 m1 k2 m2 :
  (i < j)%nat →
  LABEL_MAP !! i = Some (k1, m1) → LABEL_MAP !! j = Some (k2, m2) →
  contains k1 nl = true → contains k2 nl = true →
  special_label nl = false.
Proof.
  intros Hlt Hi Hj H1 H2.
  pose proof (filter_two_hits (fun kv : str * str => contains kv.1 nl)
                LABEL_MAP i j _ _ Hlt Hi Hj H1 H2) as Hlen.
  destruct (special_label nl) eqn:Hs; [|done]. exfalso.
  apply bool_decide_eq_true in Hs. unfold SPECIAL_LABELS in Hs.
  rewrite !elem_of_cons, elem_of_nil in Hs.
  destruct Hs as [->|[->|[->|[->|[]]]]]; vm_compute in Hlen; lia.
Qed.

(** C4 (as the code has it). The synonym table is scanned in declaration
    order and the first key contained in the normalized label wins: for a
    label that contains two keys of the table (in particular two keys one
    of which is a substring of the other), the field assigned is the one
    of the key declared first among all the keys the label contains. That
    key comes no later in the table than either of the two, and it is the
    first declared of the two when no key declared before it occurs in
    the label. *)
Theorem first_declared_synonym_wins
    (st : scan_state) (label value : str) (i j : nat) (k1 m1 k2 m2 : str) :
  (i < j)%nat →
  LABEL_MAP !! i = Some (k1, m1) →
  LABEL_MAP !! j = Some (k2, m2) →
  contains k1 (normalize_text label) = true →
  contains k2 (normalize_text label) = true →
  (∃ (n : nat) (key mapped : str),
     (n ≤ i)%nat
     ∧ LABEL_MAP !! n = Some (key, mapped)
     ∧ contains key (normalize_text label) = true
     ∧ (∀ n' k' m', (n' < n)%nat → LABEL_MAP !! n' = Some (k', m') →
                    contains k' (normalize_text label) = false)
     ∧ scan_pair st (label, value) =
         ScanState (setitem (data st) mapped (Some value))
                   (floor_value st) (total_floors st) (management_parts st))
  ∧ ((∀ n' k' m', (n' < i)%nat → LABEL_MAP !! n' = Some (k', m') →
                  contains k' (normalize_text label) = false) →
     scan_pair st (label, value) =
       ScanState (setitem (data st) m1 (Some value))
                 (floor_value st) (total_floors st) (management_parts st)).
Proof.
  intros Hlt Hi Hj H1 H2.
  pose proof (two_keys_not_special _ _ _ _ _ _ _ Hlt Hi Hj H1 H2) as Hs.
  destruct (first_match LABEL_MAP (normalize_text label)) as [[key mapped]|] eqn:Hm.
  - destruct (first_match_Some _ _ _ _ Hm) as (n & Hn & Hc & Hfirst).
    assert (n ≤ i)%nat as Hle.
    { destruct (decide (n ≤ i)%nat) as [|Hgt]; [done|].
      rewrite (Hfirst i k1 m1) in H1; [done|lia|done]. }
    split.
    + exists n, key, mapped. split_and!; try done.
      by rewrite scan_pair_other, Hm.
    + intros Hnone. rewrite scan_pair_other, Hm by done.
      destruct (decide (n < i)%nat) as [Hn_lt|Hn_ge].
      * rewrite (Hnone n key mapped Hn_lt Hn) in Hc. discriminate Hc.
      * assert (n = i) as -> by lia. rewrite Hi in Hn.
        by injection Hn as <- <-.
  - apply list_elem_of_lookup_2 in Hi.
    by rewrite (first_match_None _ _ Hm _ _ Hi) in H1.
Qed.

Lemma first_declared_synonym_wins_witness :
  (∃ (n : nat) (key mapped : str),
     (n ≤ 1)%nat
     ∧ LABEL_MAP !! n = Some (key, mapped)
     ∧ contains key (normalize_text (u "販売価格")) = true
     ∧ (∀ n' k' m', (n' < n)%nat → LABEL_MAP !! n' = Some (k', m') →
                    contains k' (normalize_text (u "販売価格")) = false)
     ∧ scan_pair (ScanState empty_row None None []) (u "販売価格", u "4000万円") =
         ScanState (setitem empty_row mapped (Some (u "4000万円"))) None None [])
  ∧ scan_pair (ScanState empty_row None None []) (u "販売価格", u "4000万円") =
      ScanState (setitem empty_row (u "価格") (Some (u "4000万円"))) None None [].
Proof.
  destruct (first_declared_synonym_wins (ScanState empty_row None None [])
              (u "販売価格") (u "4000万円") 1 2 (u "価格") (u "価格")
              (u "販売価格") (u "価格")) as [Hscan Hfirst];
    [lia|vm_compute; reflexivity|vm_compute; reflexivity
    |vm_compute; reflexivity|vm_compute; reflexivity|].
  split; [exact Hscan|]. apply Hfirst.
  intros n' k' m' Hlt. destruct n' as [|n']; [|lia].
  intros [= <- <-]. vm_compute. reflexivity.
Defined.

(** C4 (as the spec has it) fails. 引渡 and 引渡し are the entries 15 and
    16 of the table, the first a substring of the second, and both map to
    引渡し時期. The label 引渡し価格 contains both, yet its value goes to
    価格: the key 価格, entry 1 of the table, occurs in the label too and
    the scan stops there. 引渡し時期 is left null. *)
Lemma first_declared_synonym_wins_counterexample :
  LABEL_MAP !! 15%nat = Some (u "引渡", u "引渡し時期")
  ∧ LABEL_MAP !! 16%nat = Some (u "引渡し", u "引渡し時期")
  ∧ contains (u "引渡") (u "引渡し") = true
  ∧ contains (u "引渡") (normalize_text (u "引渡し価格")) = true
  ∧ contains (u "引渡し") (normalize_text (u "引渡し価格")) = true
  ∧ LABEL_MAP !! 1%nat = Some (u "価格", u "価格")
  ∧ scan_pair (ScanState empty_row None None []) (u "引渡し価格", u "相談")
    = ScanState (setitem empty_row (u "価格") (Some (u "相談"))) None None []
  ∧ getitem (data (scan_pair (ScanState empty_row None None [])
                             (u "引渡し価格", u "相談"))) (u "価格")
    = Some (Some (u "相談"))
  ∧ getitem (data (scan_pair (ScanState empty_row None None [])
                             (u "引渡し価格", u "相談"))) (u "引渡し時期")
    = Some None
  ∧ scan_pair (ScanState empty_row None None []) (u "引渡し価格", u "相談")
    ≠ ScanState (setitem empty_row (u "引渡し時期") (Some (u "相談"))) None None [].
Proof.
  split_and!; try (vm_compute; reflexivity).
  vm_compute. discriminate.
Qed.

(** ** Table rows *)

Lemma elem_of_flat_map {A B} (f : A → list B) (l : list A) (y : B) :
  y ∈ flat_map f l ↔ ∃ x, x ∈ l ∧ y ∈ f x.
Proof.
  rewrite list_elem_of_In, in_flat_map. setoid_rewrite list_elem_of_In. done.
Qed.

(** C2 (as the code has it). For every table of the detail page, the pairs
    taken from it are those of its rows, and a row contributes one pair
    exactly when it has at least one label (th) cell and at least one
    value (td) cell and the normalized texts of the first of each are not
    empty; the pair is made of these two texts. A row with no label cell
    or no value cell contributes no pair; further label or value cells in
    a row are ignored rather than making the row skipped. *)
Theorem table_row_pairs (table : PageElement) :
  (∀ pair, pair ∈ table_pairs table ↔
           ∃ tr, tr ∈ find_all (u "tr") table ∧ pair ∈ tr_pairs tr)
  ∧ ∀ tr,
      (find_all (u "th") tr = [] ∨ find_all (u "td") tr = [] → tr_pairs tr = [])
      ∧ (∀ th ths td tds,
           find_all (u "th") tr = th :: ths →
           find_all (u "td") tr = td :: tds →
           tr_pairs tr =
           if nonempty (node_text th) && nonempty (node_text td)
           then [(node_text th, node_text td)] else []).
Proof.
  split.
  - intros pair. unfold table_pairs. apply elem_of_flat_map.
  - intros tr. unfold tr_pairs, find. split.
    + intros [-> | ->]; [done|]. by destruct (head _).
    + by intros th ths td tds -> ->.
Qed.

Lemma table_row_pairs_witness :
  tr_pairs (labelled_row "間取り" "3LDK") = [(u "間取り", u "3LDK")]
  ∧ tr_pairs (tr_of [cell "td" "3LDK"]) = [].
Proof.
  split.
  - destruct (proj2 (table_row_pairs (document []))
                     (labelled_row "間取り" "3LDK")) as [_ Hrow].
    rewrite (Hrow (cell "th" "間取り") [] (cell "td" "3LDK") []);
      vm_compute; reflexivity.
  - apply (proj1 (proj2 (table_row_pairs (document []))
                        (tr_of [cell "td" "3LDK"]))).
    left. vm_compute. reflexivity.
Defined.

(** C2, the claim as stated fails: a row with two label cells and one
    value cell is not skipped, it contributes the pair of its first label
    cell and its value cell. *)
Lemma table_row_pairs_counterexample :
  length (find_all (u "th") row_two_labels) = 2%nat
  ∧ length (find_all (u "td") row_two_labels) = 1%nat
  ∧ tr_pairs row_two_labels = [(u "価格", u "3980万円")]
  ∧ extract_pairs (table_page [row_two_labels]) = [(u "価格", u "3980万円")].
Proof. split_and!; by vm_compute. Qed.

(** ** Fetching *)

Lemma fetch_html_requests server url w :
  requests (fetch_html server url w).2 = requests w ++ [url].
Proof.
  unfold fetch_html. destruct (server (requests w) url) as [r|msg]; [|done].
  by destruct (status_code r =? 200).
Qed.

(** C3 (as the code has it). A fetch returns the page body if and only if
    the server answered with status code 200 exactly; any other status,
    the other codes of the class 2xx included, and any network failure
    make the fetch return no body. *)
Theorem fetch_succeeds_iff_status_200
    (server : list str → str → reply) (url : str) (w : World) (body : str) :
  ((fetch_html server url w).1 = Some body ↔
   ∃ response, server (requests w) url = Replied response
               ∧ status_code response = 200 ∧ text response = body)
  ∧ (∀ response, server (requests w) url = Replied response →
                 status_code response ≠ 200 →
                 (fetch_html server url w).1 = None)
  ∧ (∀ msg, server (requests w) url = RequestException msg →
            (fetch_html server url w).1 = None).
Proof.
  unfold fetch_html. split_and!.
  - destruct (server (requests w) url) as [r|msg].
    + destruct (status_code r =? 200) eqn:Hs; cbn.
      * apply N.eqb_eq in Hs. split.
        -- intros [= <-]. by exists r.
        -- intros (r' & [= <-] & _ & <-). done.
      * apply N.eqb_neq in Hs. split; [done|].
        intros (r' & [= <-] & ? & _). done.
    + split; [done|]. by intros (r' & ? & _).
  - intros r -> Hs. apply N.eqb_neq in Hs. by rewrite Hs.
  - by intros msg ->.
Qed.

Lemma fetch_succeeds_iff_status_200_witness :
  (fetch_html (sample_server second_listing_ok) DETAIL_1 world0).1
  = Some detail_html_1
  ∧ (fetch_html (sample_server second_listing_ok) DETAIL_2 world0).1 = None
  ∧ (fetch_html (sample_server second_listing_ok) (u "https://suumo.jp/ms/4/")
                world0).1 = None.
Proof.
  split_and!.
  - apply (proj1 (fetch_succeeds_iff_status_200
                    (sample_server second_listing_ok) DETAIL_1 world0 detail_html_1)).
    by exists {| status_code := 200; text := detail_html_1 |}.
  - by apply (proj1 (proj2 (fetch_succeeds_iff_status_200
                              (sample_server second_listing_ok) DETAIL_2 world0 []))
                {| status_code := 404; text := u "Not Found" |}).
  - by apply (proj2 (proj2 (fetch_succeeds_iff_status_200
                              (sample_server second_listing_ok)
                              (u "https://suumo.jp/ms/4/") world0 []))
                (u "connection refused")).
Defined.

(** C3, the claim as stated fails: 203 is a success status, and the fetch
    of a response with that status and a body returns no body. *)
Lemma fetch_succeeds_iff_status_200_counterexample :
  server_203 (requests world0) DETAIL_1
  = Replied {| status_code := 203; text := detail_html_1 |}
  ∧ http_success 203 = true
  ∧ (fetch_html server_203 DETAIL_1 world0).1 = None.
Proof. split_and!; by vm_compute. Qed.

(** ** The listing walk *)

Lemma fold_append_new_nil xs : fold_left append_new xs [] = dedup_first xs.
Proof.
  rewrite fold_append_new. cbn [app]. f_equal.
  induction xs as [|x xs IH]; [done|]. cbn [List.filter].
  rewrite bool_decide_eq_false_2 by apply not_elem_of_nil.
  cbn [negb]. by rewrite IH.
Qed.

Lemma fold_append_new_app xs ys ks :
  fold_left append_new (xs ++ ys) ks
  = fold_left append_new ys (fold_left append_new xs ks).
Proof. apply fold_left_app. Qed.

(** The set of the walk mirrors its list, so the walk appends exactly the
    URLs that the list does not hold yet. *)
Lemma add_new_append_new (acc : list str) (seen : gset str) (url : str) :
  (∀ x, x ∈ seen ↔ x ∈ acc) →
  ∃ seen' : gset str,
    add_new (acc, seen) url = (append_new acc url, seen')
    ∧ ∀ x, x ∈ seen' ↔ x ∈ append_new acc url.
Proof.
  intros Hinv. unfold add_new, append_new. cbn [fst snd].
  destruct (decide (url ∈ seen)) as [Hin|Hnin].
  - rewrite decide_True by by apply Hinv. by exists seen.
  - rewrite decide_False by by rewrite <- Hinv.
    exists ({[ url ]} ∪ seen). split; [done|]. intros x.
    rewrite elem_of_union, elem_of_singleton, elem_of_app,
      list_elem_of_singleton, Hinv. tauto.
Qed.

Lemma fold_add_new (urls acc : list str) (seen : gset str) :
  (∀ x, x ∈ seen ↔ x ∈ acc) →
  (fold_left add_new urls (acc, seen)).1 = fold_left append_new urls acc
  ∧ ∀ x, x ∈ (fold_left add_new urls (acc, seen)).2
         ↔ x ∈ (fold_left add_new urls (acc, seen)).1.
Proof.
  revert acc seen. induction urls as [|url urls IH]; intros acc seen Hinv; [done|].
  cbn [fold_left].
  destruct (add_new_append_new acc seen url Hinv) as (seen' & -> & Hinv').
  by apply IH.
Qed.

Section Walk.
Variable server : list str -> str -> reply.
Variable html_parser : str -> exn + PageElement.
Variable urljoin : str -> str -> exn + str.

Abbreviation fetched := (fetched server).
Abbreviation serves := (serves server html_parser urljoin).
Abbreviation chain := (chain server html_parser urljoin).
Abbreviation walk_from := (walk server html_parser urljoin).

Lemma fetch_html_fetched url w :
  (fetch_html server url w).1 = fetched (requests w) url.
Proof.
  unfold fetched, fetch_html. cbn [requests].
  destruct (server (requests w) url) as [r|msg]; [|done].
  by destruct (status_code r =? 200).
Qed.

(** One turn of the loop on a page that the site serves. *)
Lemma walk_step p acc seen w :
  serves (requests w) p →
  ∃ w', requests w' = requests w ++ [page_url p]
        ∧ ∀ fuel,
            walk_from (S fuel) (Some (page_url p)) acc seen w
            = walk_from fuel (page_next p)
                (fold_left add_new (page_details p) (acc, seen)).1
                (fold_left add_new (page_details p) (acc, seen)).2 w'.
Proof.
  intros (Hurl & html & Hfetch & Hhtml & Hdetails & Hnext).
  rewrite <- fetch_html_fetched in Hfetch.
  exists (if truthy (page_next p)
          then sleep (fetch_html server (page_url p) w).2
          else (fetch_html server (page_url p) w).2).
  split.
  - pose proof (fetch_html_requests server (page_url p) w).
    by destruct (truthy (page_next p)).
  - intros fuel. cbn [walk]. rewrite Hurl. cbn [negb].
    destruct (fetch_html server (page_url p) w) as [listing_html w1].
    cbn [fst snd] in Hfetch |- *. subst listing_html.
    rewrite Hhtml. cbn [negb]. rewrite Hdetails, Hnext.
    by destruct (fold_left add_new (page_details p) (acc, seen)).
Qed.

(** The loop along a chain of served pages. *)
Lemma walk_chain pages start acc seen w :
  chain (requests w) start pages →
  (∀ x, x ∈ seen ↔ x ∈ acc) →
  ∃ w' (seen' : gset str),
    requests w' = requests w ++ map page_url pages
    ∧ (∀ x, x ∈ seen'
            ↔ x ∈ fold_left append_new (concat (map page_details pages)) acc)
    ∧ ∀ fuel,
        walk_from (length pages + fuel) start acc seen w
        = walk_from fuel (next_after start pages)
            (fold_left append_new (concat (map page_details pages)) acc)
            seen' w'.
Proof.
  revert start acc seen w.
  induction pages as [|p pages IH]; intros start acc seen w Hchain Hinv.
  - exists w, seen. cbn. by rewrite app_nil_r.
  - destruct Hchain as (-> & Hserves & Hchain).
    destruct (fold_add_new (page_details p) acc seen Hinv) as [Hacc Hinv'].
    destruct (walk_step p acc seen w Hserves) as (w1 & Hreq1 & Hstep).
    rewrite <- Hreq1 in Hchain.
    destruct (IH _ _ _ _ Hchain Hinv') as (w' & seen' & Hreq' & Hinv'' & Hwalk).
    exists w', seen'. cbn [map concat]. rewrite fold_append_new_app, <- Hacc.
    split_and!.
    + rewrite Hreq', Hreq1, <- app_assoc. done.
    + done.
    + intros fuel. cbn [length Nat.add]. rewrite Hstep. apply Hwalk.
Qed.

Lemma walk_done fuel next acc seen w :
  truthy next = false → walk_from fuel next acc seen w = Returned acc w.
Proof.
  destruct next as [url|]; [|by destruct fuel].
  cbn [truthy]. intros Hurl. destruct fuel; cbn [walk]; by rewrite Hurl.
Qed.

Lemma walk_fetch_fails fuel url acc seen w :
  nonempty url = true →
  truthy (fetched (requests w) url) = false →
  ∃ w', walk_from (S fuel) (Some url) acc seen w
        = Raised (RuntimeError (MSG_fetch_failed ++ url)) w'.
Proof.
  intros Hurl Hfail. rewrite <- fetch_html_fetched in Hfail.
  cbn [walk]. rewrite Hurl. cbn [negb].
  destruct (fetch_html server url w) as [listing_html w1]. cbn [fst] in Hfail.
  exists w1. destruct listing_html as [html|]; [|done].
  cbn [truthy] in Hfail. by rewrite Hfail.
Qed.
End Walk.

(** C9. For every sequence of N listing pages that the site serves one
    after the other, the last of which has no next link, the walk ends
    after exactly N fetches, those of the N pages in order, and returns
    the detail URLs of all of them without duplicates, each at the
    position of its first occurrence. *)
Theorem walk_visits_every_page
    (server : list str → str → reply) (html_parser : str → exn + PageElement)
    (urljoin : str → str → exn + str)
    (listing_url : str) (pages : list listing_page) (w : World) (fuel : nat) :
  chain server html_parser urljoin (requests w) (Some listing_url) pages →
  truthy (next_after (Some listing_url) pages) = false →
  (length pages ≤ fuel)%nat →
  let detail_urls := dedup_first (concat (map page_details pages)) in
  (∃ w', walk server html_parser urljoin fuel (Some listing_url) [] ∅ w
         = Returned detail_urls w'
         ∧ requests w' = requests w ++ map page_url pages)
  ∧ NoDup detail_urls
  ∧ ∀ url, url ∈ detail_urls ↔ ∃ p, p ∈ pages ∧ url ∈ page_details p.
Proof.
  intros Hchain Hlast Hfuel detail_urls. split_and!.
  - destruct (walk_chain server html_parser urljoin pages (Some listing_url)
                [] ∅ w Hchain) as (w' & seen' & Hreq & _ & Hwalk).
    { intros x. by rewrite elem_of_empty, elem_of_nil. }
    exists w'. split; [|done].
    replace fuel with (length pages + (fuel - length pages))%nat by lia.
    rewrite Hwalk, walk_done by done.
    by rewrite fold_append_new_nil.
  - apply NoDup_dedup_first.
  - intros url. unfold detail_urls.
    rewrite elem_of_dedup_first, list_elem_of_In, in_concat.
    split.
    + intros (urls & Hurls & Hin). apply in_map_iff in Hurls as (p & <- & Hp).
      exists p. by rewrite !list_elem_of_In.
    + intros (p & Hp & Hin). exists (page_details p).
      rewrite <- !list_elem_of_In. split; [|done].
      apply list_elem_of_fmap. by exists p.
Qed.

Lemma walk_visits_every_page_witness :
  let detail_urls := dedup_first (concat (map page_details sample_pages)) in
  (∃ w', walk (sample_server second_listing_ok) sample_parser sample_urljoin
              2 (Some LISTING_1) [] ∅ world0
         = Returned detail_urls w'
         ∧ requests w' = requests world0 ++ map page_url sample_pages)
  ∧ NoDup detail_urls
  ∧ ∀ url, url ∈ detail_urls ↔ ∃ p, p ∈ sample_pages ∧ url ∈ page_details p.
Proof.
  refine (walk_visits_every_page (sample_server second_listing_ok) sample_parser
            sample_urljoin LISTING_1 sample_pages world0 2 _ _ _).
  - split; [reflexivity|]. split.
    + split; [reflexivity|]. exists listing_html_1.
      split_and!; vm_compute; reflexivity.
    + split; [reflexivity|]. split; [|exact I].
      split; [reflexivity|]. exists listing_html_2.
      split_and!; vm_compute; reflexivity.
  - reflexivity.
  - cbn [length sample_pages]. lia.
Defined.

(** ** A listing page that cannot be fetched *)

(** C1 (as the code has it). In every crawl in which the fetch of a
    listing page fails, be it the first page or a later one reached
    through next links, the run is aborted with the error
    "Failed to fetch listing page: <url>" for that page: no row is
    emitted, whatever detail URLs were collected before. *)
Theorem listing_fetch_failure_aborts
    (server : list str → str → reply) (html_parser : str → exn + PageElement)
    (urljoin : str → str → exn + str)
    (listing_url failing_url : str) (pages : list listing_page)
    (w : World) (fuel : nat) :
  chain server html_parser urljoin (requests w) (Some listing_url) pages →
  next_after (Some listing_url) pages = Some failing_url →
  nonempty failing_url = true →
  truthy (fetched server (requests w ++ map page_url pages) failing_url) = false →
  (length pages < fuel)%nat →
  ∃ w', scrape_suumo server html_parser urljoin fuel listing_url w
        = Raised (RuntimeError (MSG_fetch_failed ++ failing_url)) w'.
Proof.
  intros Hchain Hnext Hurl Hfail Hfuel. unfold scrape_suumo.
  destruct (walk_chain server html_parser urljoin pages (Some listing_url)
              [] ∅ w Hchain) as (w1 & seen' & Hreq & _ & Hwalk).
  { intros x. by rewrite elem_of_empty, elem_of_nil. }
  replace fuel with (length pages + S (fuel - S (length pages)))%nat by lia.
  rewrite Hwalk, Hnext. rewrite <- Hreq in Hfail.
  destruct (walk_fetch_fails server html_parser urljoin
              (fuel - S (length pages))
              failing_url
              (fold_left append_new (concat (map page_details pages)) [])
              seen' w1 Hurl Hfail) as (w' & ->).
  by exists w'.
Qed.

Lemma listing_fetch_failure_aborts_witness :
  ∃ w', scrape_suumo (sample_server second_listing_unavailable) sample_parser
                     sample_urljoin 2 LISTING_1 world0
        = Raised (RuntimeError (MSG_fetch_failed ++ LISTING_2)) w'.
Proof.
  refine (listing_fetch_failure_aborts
            (sample_server second_listing_unavailable) sample_parser
            sample_urljoin LISTING_1 LISTING_2 (take 1 sample_pages) world0 2
            _ _ _ _ _).
  - split; [reflexivity|]. split; [|exact I].
    split; [reflexivity|]. exists listing_html_1.
    split_and!; vm_compute; reflexivity.
  - reflexivity.
  - reflexivity.
  - vm_compute. reflexivity.
  - cbn [length take sample_pages]. lia.
Defined.

(** C1, the claim as stated fails: the first listing page is fetched and
    yields two detail URLs and a next link, the fetch of the second
    listing page fails, and the run is aborted instead of emitting a row
    for each of the two URLs. *)
Lemma listing_fetch_failure_counterexample :
  fetched (sample_server second_listing_unavailable) [] LISTING_1
  = Some listing_html_1
  ∧ extract_detail_urls sample_parser sample_urljoin listing_html_1 LISTING_1
    = inr [DETAIL_1; DETAIL_2]
  ∧ extract_next_page_url sample_parser sample_urljoin listing_html_1 LISTING_1
    = inr (Some LISTING_2)
  ∧ fetched (sample_server second_listing_unavailable) [LISTING_1] LISTING_2
    = None
  ∧ scrape_suumo (sample_server second_listing_unavailable) sample_parser
                 sample_urljoin 5 LISTING_1 world0
    = Raised (RuntimeError (u "Failed to fetch listing page: https://suumo.jp/list/?page=2"))
             {| requests := [LISTING_1; LISTING_2];
                console := [WarnStatus 503 LISTING_2];
                sleeps := 1 |}.
Proof. split_and!; by vm_compute. Qed.

(** ** The rows of a run *)

Lemma getitem_placeholder_url url : getitem (placeholder url) C_url = Some (Some url).
Proof. apply getitem_setitem_eq. Qed.

Lemma getitem_empty_row :
  Forall (fun col => getitem empty_row col = Some None) COLUMNS.
Proof. by_evaluation. Qed.

Lemma getitem_placeholder_null url field :
  field ∈ COLUMNS → field ≠ C_url → getitem (placeholder url) field = Some None.
Proof.
  intros Hin Hne. unfold placeholder. rewrite getitem_setitem_ne by done.
  by apply (proj1 (Forall_forall _ _) getitem_empty_row).
Qed.

Lemma getitem_parse_url soup url :
  getitem (parse_detail_soup soup url) C_url = Some (Some url).
Proof.
  unfold parse_detail_soup, scan_pairs.
  rewrite getitem_finish; [|done|by left].
  rewrite scan_pairs_getitem, last_assigned_unmapped by by_evaluation.
  cbn [data]. unfold initial_data.
  destruct (truthy (pick_first_text soup NAME_SELECTORS));
    destruct (truthy (pick_first_text soup PRICE_SELECTORS));
    rewrite ?getitem_setitem_ne by done; apply getitem_setitem_eq.
Qed.

(** Reading a record at its own keys gives the record back. *)
Lemma reindex_keys (r : row) :
  NoDup (keys r) → map (fun c => (c, default None (getitem r c))) (keys r) = r.
Proof.
  unfold keys. induction r as [|[k v] r IH]; [done|].
  cbn [map fst]. intros [Hk Hr]%NoDup_cons. cbn [getitem].
  rewrite decide_True by done. cbn [default]. f_equal.
  rewrite <- (IH Hr) at 2. apply map_ext_in. intros c Hc%list_elem_of_In.
  rewrite decide_False; [done|]. by intros ->.
Qed.

Lemma NoDup_COLUMNS : NoDup COLUMNS.
Proof. by_evaluation. Qed.

Lemma DataFrame_records records :
  Forall (fun r : row => keys r = COLUMNS) records →
  DataFrame records COLUMNS = records.
Proof.
  unfold DataFrame. induction 1 as [|r records Hr _ IH]; [done|].
  cbn [map]. rewrite IH. f_equal.
  rewrite <- Hr at 1. apply reindex_keys. rewrite Hr. apply NoDup_COLUMNS.
Qed.

Section Rows.
Variable server : list str -> str -> reply.
Variable html_parser : str -> exn + PageElement.
Variable urljoin : str -> str -> exn + str.

Lemma row_of_placeholder url : row_of url (placeholder url).
Proof.
  split_and!; [apply keys_placeholder|apply getitem_placeholder_url|by left].
Qed.

Lemma visit_row total idx url w :
  row_of url (visit server html_parser total idx url w).1.
Proof.
  unfold visit. destruct (fetch_html server url w) as [[html|] w1];
    [|apply row_of_placeholder].
  destruct (nonempty html); cbn [negb]; [|apply row_of_placeholder].
  unfold parse_detail_page. destruct (html_parser html) as [exc|soup];
    cbn [fst]; [apply row_of_placeholder|].
  split_and!; [apply keys_parse_detail_soup|apply getitem_parse_url|].
  right. by exists soup.
Qed.

Lemma visit_all_rows total urls idx records w :
  ∃ rows,
    (visit_all server html_parser total idx urls records w).1 = records ++ rows
    ∧ Forall2 row_of urls rows.
Proof.
  revert idx records w. induction urls as [|url urls IH]; intros idx records w.
  - exists []. cbn. by rewrite app_nil_r.
  - cbn [visit_all]. pose proof (visit_row total idx url w) as Hrow.
    destruct (visit server html_parser total idx url w) as [record w1].
    cbn [fst] in Hrow.
    destruct (IH (S idx) (records ++ [record]) w1) as (rows & Heq & Hrows).
    exists (record :: rows). rewrite Heq, <- app_assoc. split; [done|].
    by constructor.
Qed.
End Rows.

(** C8. Row-shape invariant: every row of a completed run, whether it
    comes from a parsed page, a failed detail fetch or a parse exception,
    has exactly the canonical columns as its keys, in order, and holds in
    its URL field the detail URL it was made for; there is one row per
    detail URL of the walk, in the order of the walk, and the row of a
    failed fetch or parse holds a null in every other field. *)
Theorem emitted_rows_shape
    (server : list str → str → reply) (html_parser : str → exn + PageElement)
    (urljoin : str → str → exn + str)
    (fuel : nat) (listing_url : str) (w w' : World) (rows : list row) :
  scrape_suumo server html_parser urljoin fuel listing_url w = Returned rows w' →
  (∃ detail_urls w1,
     walk server html_parser urljoin fuel (Some listing_url) [] ∅ w
     = Returned detail_urls w1
     ∧ Forall2 row_of detail_urls rows)
  ∧ (∀ r, r ∈ rows →
          keys r = COLUMNS ∧ ∃ url, getitem r C_url = Some (Some url))
  ∧ (∀ url field, field ∈ COLUMNS → field ≠ C_url →
                  getitem (placeholder url) field = Some None).
Proof.
  unfold scrape_suumo. intros Hrun.
  destruct (walk server html_parser urljoin fuel (Some listing_url) [] ∅ w)
    as [detail_urls w1| |]; [|done..].
  destruct detail_urls as [|url urls] eqn:Hurls; [done|]. rewrite <- Hurls in *.
  destruct (visit_all_rows server html_parser (length detail_urls)
              detail_urls 1 [] w1) as (records & Heq & Hrecords).
  destruct (visit_all server html_parser (length detail_urls) 1 detail_urls [] w1)
    as [records' w2]. cbn [fst app] in Heq. subst records'.
  injection Hrun as <- <-.
  assert (Forall (fun r : row => keys r = COLUMNS) records) as Hkeys.
  { apply Forall_forall. intros r Hr.
    apply list_elem_of_lookup in Hr as [i Hi].
    destruct (Forall2_lookup_r _ _ _ _ _ Hrecords Hi) as (u' & _ & Hrow).
    apply Hrow. }
  rewrite DataFrame_records by done. split_and!.
  - by exists detail_urls, w1.
  - intros r Hr. apply list_elem_of_lookup in Hr as [i Hi].
    destruct (Forall2_lookup_r _ _ _ _ _ Hrecords Hi) as (u' & _ & Hk & Hu & _).
    split; [done|]. by exists u'.
  - intros ???. by apply getitem_placeholder_null.
Qed.

Lemma emitted_rows_shape_witness :
  (∃ detail_urls w1,
     walk (sample_server second_listing_ok) sample_parser sample_urljoin
          2 (Some LISTING_1) [] ∅ world0
     = Returned detail_urls w1
     ∧ Forall2 row_of detail_urls sample_rows)
  ∧ (∀ r, r ∈ sample_rows →
          keys r = COLUMNS ∧ ∃ url, getitem r C_url = Some (Some url))
  ∧ (∀ url field, field ∈ COLUMNS → field ≠ C_url →
                  getitem (placeholder url) field = Some None).
Proof.
  apply (emitted_rows_shape (sample_server second_listing_ok) sample_parser
           sample_urljoin 2 LISTING_1 world0 sample_final_world sample_rows).
  vm_compute. reflexivity.
Defined.

(** * Further properties of the extractor *)

(** ** Name and price selectors *)

Lemma pick_first_text_cases
    (soup : PageElement) (selectors : list selector) :
  match pick_first_text soup selectors with
  | Some text =>
    nonempty text = true
    ∧ ∃ before sel after node,
        selectors = before ++ sel :: after
        ∧ select_one sel soup = Some node
        ∧ node_text node = text
        ∧ Forall (fun sel' => ∀ node', select_one sel' soup = Some node' →
                                       node_text node' = []) before
  | None =>
    Forall (fun sel' => ∀ node', select_one sel' soup = Some node' →
                                 node_text node' = []) selectors
  end.
Proof.
  induction selectors as [|sel selectors IH]; cbn [pick_first_text]; [done|].
  destruct (select_one sel soup) as [node|] eqn:Hsel.
  - destruct (nonempty (node_text node)) eqn:Htext.
    + split; [done|]. exists [], sel, selectors, node. by split_and!.
    + assert (∀ node', Some node = Some node' → node_text node' = []) as Hempty.
      { intros node' [= <-]. by destruct (node_text node). }
      destruct (pick_first_text soup selectors) as [text|].
      * destruct IH as (Hne & before & sel' & after & node' & -> & ? & ? & ?).
        split; [done|]. exists (sel :: before), sel', after, node'.
        split_and!; try done. constructor; [|done]. by rewrite Hsel.
      * constructor; [|done]. by rewrite Hsel.
  - assert (∀ node', None = Some node' → node_text node' = []) as Hnone by done.
    destruct (pick_first_text soup selectors) as [text|].
    + destruct IH as (Hne & before & sel' & after & node' & -> & ? & ? & ?).
      split; [done|]. exists (sel :: before), sel', after, node'.
      split_and!; try done. constructor; [|done]. by rewrite Hsel.
    + constructor; [|done]. by rewrite Hsel.
Qed.

(** X1. [pick_first_text] goes through the selectors in order: it returns the
    normalized text of the first element selected whose text is not
    empty, never an empty string, and nothing exactly when no selector
    yields a text. *)
Theorem pick_first_text_first_nonempty
    (soup : PageElement) (selectors : list selector) :
  (∀ text, pick_first_text soup selectors = Some text →
           nonempty text = true
           ∧ ∃ before sel after node,
               selectors = before ++ sel :: after
               ∧ select_one sel soup = Some node
               ∧ node_text node = text
               ∧ Forall (fun sel' => ∀ node', select_one sel' soup = Some node' →
                                              node_text node' = []) before)
  ∧ (pick_first_text soup selectors = None →
     Forall (fun sel' => ∀ node', select_one sel' soup = Some node' →
                                  node_text node' = []) selectors).
Proof.
  pose proof (pick_first_text_cases soup selectors) as H.
  destruct (pick_first_text soup selectors) as [text|].
  - split; [|done]. by intros ? [= <-].
  - by split.
Qed.

Lemma pick_first_text_first_nonempty_witness :
  nonempty (u "パークハウス 三田") = true
  ∧ ∃ before sel after node,
      NAME_SELECTORS = before ++ sel :: after
      ∧ select_one sel page_titled = Some node
      ∧ node_text node = u "パークハウス 三田"
      ∧ Forall (fun sel' => ∀ node', select_one sel' page_titled = Some node' →
                                     node_text node' = []) before.
Proof.
  apply (proj1 (pick_first_text_first_nonempty page_titled NAME_SELECTORS)).
  vm_compute. reflexivity.
Defined.

Lemma pick_first_text_truthy soup selectors :
  truthy (pick_first_text soup selectors)
  = bool_decide (is_Some (pick_first_text soup selectors)).
Proof.
  pose proof (pick_first_text_cases soup selectors) as H.
  destruct (pick_first_text soup selectors) as [text|]; [|done].
  destruct H as [Hne _]. cbn [truthy]. by rewrite Hne, bool_decide_eq_true_2.
Qed.

(** ** Every field of the row *)

Lemma truthy_pick soup selectors :
  truthy (pick_first_text soup selectors)
  = match pick_first_text soup selectors with Some _ => true | None => false end.
Proof.
  rewrite pick_first_text_truthy.
  destruct (pick_first_text soup selectors); [by apply bool_decide_eq_true_2|].
  apply bool_decide_eq_false_2. by intros [??].
Qed.

Lemma getitem_initial_name soup url :
  getitem (initial_data soup url) C_name = Some (pick_first_text soup NAME_SELECTORS).
Proof.
  unfold initial_data. rewrite !truthy_pick.
  destruct (pick_first_text soup NAME_SELECTORS) as [name|];
    destruct (pick_first_text soup PRICE_SELECTORS) as [price|];
    rewrite ?(getitem_setitem_ne _ C_price C_name) by done;
    rewrite ?getitem_setitem_eq;
    rewrite ?(getitem_setitem_ne _ C_url C_name) by done;
    reflexivity.
Qed.

Lemma getitem_initial_price soup url :
  getitem (initial_data soup url) C_price = Some (pick_first_text soup PRICE_SELECTORS).
Proof.
  unfold initial_data. rewrite !truthy_pick.
  destruct (pick_first_text soup NAME_SELECTORS) as [name|];
    destruct (pick_first_text soup PRICE_SELECTORS) as [price|];
    rewrite ?getitem_setitem_eq;
    rewrite ?(getitem_setitem_ne _ C_name C_price) by done;
    rewrite ?(getitem_setitem_ne _ C_url C_price) by done;
    reflexivity.
Qed.

(** X2. A field other than the two combined ones holds the value of the last
    pair that reaches it through the synonym table; without such a pair,
    the name and price fields hold what the selectors found, the URL
    field holds the URL, and the field is null otherwise. The management
    field follows the same rule on a page without management-labelled
    pairs. *)
Theorem row_field (soup : PageElement) (url field : str) :
  field ∈ COLUMNS →
  field ≠ C_floor →
  (field = C_management → management_values (extract_pairs soup) = []) →
  getitem (parse_detail_soup soup url) field =
  match last_assigned field (extract_pairs soup) with
  | Some value => Some (Some value)
  | None =>
    if decide (field = C_url) then Some (Some url)
    else if decide (field = C_name)
    then Some (pick_first_text soup NAME_SELECTORS)
    else if decide (field = C_price)
    then Some (pick_first_text soup PRICE_SELECTORS)
    else Some None
  end.
Proof.
  intros Hcol Hfloor Hman. unfold parse_detail_soup, scan_pairs.
  rewrite getitem_finish; [|done|].
  - rewrite scan_pairs_getitem. cbn [data].
    destruct (last_assigned field (extract_pairs soup)); [done|].
    destruct (decide (field = C_url)) as [->|Hurl].
    { unfold initial_data.
      destruct (truthy (pick_first_text soup NAME_SELECTORS));
        destruct (truthy (pick_first_text soup PRICE_SELECTORS));
        rewrite ?getitem_setitem_ne by done; apply getitem_setitem_eq. }
    destruct (decide (field = C_name)) as [->|Hname];
      [apply getitem_initial_name|].
    destruct (decide (field = C_price)) as [->|Hprice];
      [apply getitem_initial_price|].
    rewrite getitem_initial_data by done.
    by apply (proj1 (Forall_forall _ _) getitem_empty_row).
  - destruct (decide (field = C_management)) as [Heq|Hne]; [right|by left].
    rewrite scan_pairs_management_parts. cbn [management_parts app]. auto.
Qed.

Lemma row_field_witness :
  getitem (parse_detail_soup page_titled sample_url) C_name
  = Some (Some (u "三田ハウス"))
  ∧ getitem (parse_detail_soup page_titled sample_url) C_price = Some None
  ∧ getitem (parse_detail_soup page_remarks sample_url) C_name = Some None.
Proof.
  split_and!.
  - rewrite (row_field page_titled sample_url C_name);
      [vm_compute; reflexivity|by_evaluation|discriminate|discriminate].
  - rewrite (row_field page_titled sample_url C_price);
      [vm_compute; reflexivity|by_evaluation|discriminate|discriminate].
  - rewrite (row_field page_remarks sample_url C_name);
      [vm_compute; reflexivity|by_evaluation|discriminate|discriminate].
Defined.

(** X3. A page none of whose pairs carries a special label or contains a
    synonym key yields the initial row: the URL, the name and price the
    selectors found, and nulls. *)
Theorem unmatched_pairs_leave_row (soup : PageElement) (url : str) :
  Forall (fun p : str * str =>
            special_label (normalize_text p.1) = false
            ∧ first_match LABEL_MAP (normalize_text p.1) = None)
         (extract_pairs soup) →
  parse_detail_soup soup url = initial_data soup url.
Proof.
  intros Hall. unfold parse_detail_soup, scan_pairs.
  assert (∀ st, fold_left scan_pair (extract_pairs soup) st = st) as ->.
  { induction Hall as [|[label value] pairs [Hs Hm] _ IH]; intros st; [done|].
    cbn [fold_left]. cbn [fst] in Hs, Hm.
    rewrite scan_pair_other, Hm by done. rewrite IH. by destruct st. }
  done.
Qed.

Lemma unmatched_pairs_leave_row_witness :
  parse_detail_soup page_remarks sample_url = initial_data page_remarks sample_url.
Proof.
  apply unmatched_pairs_leave_row.
  assert (extract_pairs page_remarks
          = [(u "備考", u "なし"); (u "所在階数", u "3階")]) as ->
    by (vm_compute; reflexivity).
  repeat (constructor; [split; vm_compute; reflexivity|]). constructor.
Defined.

(** * Further properties of the crawl *)

(** ** What a fetch does to the world *)

Lemma fetch_html_world
    (server : list str → str → reply) (url : str) (w : World) :
  requests (fetch_html server url w).2 = requests w ++ [url]
  ∧ sleeps (fetch_html server url w).2 = sleeps w
  ∧ console (fetch_html server url w).2 =
    console w ++
    match server (requests w) url with
    | Replied response =>
      if status_code response =? 200 then []
      else [WarnStatus (status_code response) url]
    | RequestException msg => [WarnRequestFailed url msg]
    end.
Proof.
  unfold fetch_html. destruct (server (requests w) url) as [r|msg].
  - destruct (status_code r =? 200); cbn; by rewrite ?app_nil_r.
  - done.
Qed.

(** A fetch logs one request and never sleeps; it prints one warning when
    it fails on a status or on the network, and none otherwise. *)
Theorem fetch_html_effects
    (server : list str → str → reply) (url : str) (w : World) :
  requests (fetch_html server url w).2 = requests w ++ [url]
  ∧ sleeps (fetch_html server url w).2 = sleeps w
  ∧ console (fetch_html server url w).2 =
    console w ++
    match server (requests w) url with
    | Replied response =>
      if status_code response =? 200 then []
      else [WarnStatus (status_code response) url]
    | RequestException msg => [WarnRequestFailed url msg]
    end.
Proof. apply fetch_html_world. Qed.

Section RunEffects.
Variable server : list str -> str -> reply.
Variable html_parser : str -> exn + PageElement.
Variable urljoin : str -> str -> exn + str.

Abbreviation fetched_ := (fetched server).
Abbreviation serves_ := (serves server html_parser urljoin).
Abbreviation chain_ := (chain server html_parser urljoin).
Abbreviation walk_ := (walk server html_parser urljoin).
Abbreviation visit_ := (visit server html_parser).
Abbreviation visit_all_ := (visit_all server html_parser).

Lemma fetch_html_Some url w html :
  fetched_ (requests w) url = Some html →
  fetch_html server url w = (Some html, requested url w).
Proof.
  unfold fetched, fetch_html. cbn [requests].
  destruct (server (requests w) url) as [r|msg]; [|done].
  destruct (status_code r =? 200); [|done]. cbn. by intros [= <-].
Qed.

(** One turn of the loop, with what it does to the world. *)
Lemma walk_step_effects p acc seen w :
  serves_ (requests w) p →
  ∃ w', requests w' = requests w ++ [page_url p]
        ∧ console w' = console w
        ∧ sleeps w' = (sleeps w + if truthy (page_next p) then 1 else 0)%nat
        ∧ ∀ fuel,
            walk_ (S fuel) (Some (page_url p)) acc seen w
            = walk_ fuel (page_next p)
                (fold_left add_new (page_details p) (acc, seen)).1
                (fold_left add_new (page_details p) (acc, seen)).2 w'.
Proof.
  intros (Hurl & html & Hfetch & Hhtml & Hdetails & Hnext).
  exists (if truthy (page_next p)
          then sleep (requested (page_url p) w)
          else requested (page_url p) w).
  split_and!.
  - by destruct (truthy (page_next p)).
  - by destruct (truthy (page_next p)).
  - destruct (truthy (page_next p)); cbn; lia.
  - intros fuel. cbn [walk]. rewrite Hurl. cbn [negb].
    rewrite (fetch_html_Some _ _ _ Hfetch).
    rewrite Hhtml. cbn [negb]. rewrite Hdetails, Hnext.
    by destruct (fold_left add_new (page_details p) (acc, seen)).
Qed.

Lemma walk_chain_effects pages start acc seen w :
  chain_ (requests w) start pages →
  (∀ x, x ∈ seen ↔ x ∈ acc) →
  ∃ w' (seen' : gset str),
    requests w' = requests w ++ map page_url pages
    ∧ console w' = console w
    ∧ sleeps w' = (sleeps w + followed pages)%nat
    ∧ ∀ fuel,
        walk_ (length pages + fuel) start acc seen w
        = walk_ fuel (next_after start pages)
            (fold_left append_new (concat (map page_details pages)) acc)
            seen' w'.
Proof.
  revert start acc seen w.
  induction pages as [|p pages IH]; intros start acc seen w Hchain Hinv.
  - exists w, seen. cbn. rewrite app_nil_r. split_and!; [done|done|lia|done].
  - destruct Hchain as (-> & Hserves & Hchain).
    destruct (fold_add_new (page_details p) acc seen Hinv) as [Hacc Hinv'].
    destruct (walk_step_effects p acc seen w Hserves)
      as (w1 & Hreq1 & Hcon1 & Hsl1 & Hstep).
    rewrite <- Hreq1 in Hchain.
    destruct (IH _ _ _ _ Hchain Hinv')
      as (w' & seen' & Hreq' & Hcon' & Hsl' & Hwalk).
    exists w', seen'. cbn [map concat]. rewrite fold_append_new_app, <- Hacc.
    split_and!.
    + rewrite Hreq', Hreq1, <- app_assoc. done.
    + congruence.
    + rewrite Hsl', Hsl1. unfold followed. cbn [List.filter].
      destruct (truthy (page_next p)); cbn [length]; lia.
    + intros fuel. cbn [length Nat.add]. rewrite Hstep. apply Hwalk.
Qed.


Lemma fetch_html_falsy url w :
  truthy (fetched_ (requests w) url) = false →
  truthy (fetch_html server url w).1 = false.
Proof. by rewrite fetch_html_fetched. Qed.


End RunEffects.

(** ** A run that completes *)



(** ** A walk that finds nothing *)

(** X5. When the listing pages of a completed walk link to no detail page at
    all, the run is aborted with the error "No detail URLs found. The
    page structure may have changed."; no row is emitted. *)
Theorem no_detail_urls_aborts
    (server : list str → str → reply) (html_parser : str → exn + PageElement)
    (urljoin : str → str → exn + str)
    (listing_url : str) (pages : list listing_page) (w : World) (fuel : nat) :
  chain server html_parser urljoin (requests w) (Some listing_url) pages →
  truthy (next_after (Some listing_url) pages) = false →
  (length pages ≤ fuel)%nat →
  Forall (fun p => page_details p = []) pages →
  ∃ w', scrape_suumo server html_parser urljoin fuel listing_url w
        = Raised (RuntimeError MSG_no_urls) w'
        ∧ requests w' = requests w ++ map page_url pages.
Proof.
  intros Hchain Hlast Hfuel Hempty. unfold scrape_suumo.
  destruct (walk_chain_effects server html_parser urljoin pages
              (Some listing_url) [] ∅ w Hchain)
    as (w1 & seen' & Hreq1 & _ & _ & Hwalk).
  { intros x. by rewrite elem_of_empty, elem_of_nil. }
  replace fuel with (length pages + (fuel - length pages))%nat by lia.
  rewrite Hwalk, walk_done, fold_append_new_nil by done.
  assert (concat (map page_details pages) = []) as ->.
  { clear -Hempty. induction Hempty as [|p pages Hp _ IH]; [done|].
    cbn [map concat]. by rewrite Hp, IH. }
  by exists w1.
Qed.

Lemma no_detail_urls_aborts_witness :
  ∃ w', scrape_suumo bare_server bare_parser sample_urljoin 1 LISTING_1 world0
        = Raised (RuntimeError MSG_no_urls) w'
        ∧ requests w' = requests world0 ++ map page_url [bare_page].
Proof.
  refine (no_detail_urls_aborts bare_server bare_parser sample_urljoin
            LISTING_1 [bare_page] world0 1 _ _ _ _).
  - split; [reflexivity|]. split; [|exact I].
    split; [reflexivity|]. exists bare_html.
    split_and!; vm_compute; reflexivity.
  - reflexivity.
  - cbn [length]. lia.
  - repeat constructor.
Defined.

(** ** Pagination that never ends *)

Lemma walk_never_ends
    (server : list str → str → reply) (html_parser : str → exn + PageElement)
    (urljoin : str → str → exn + str) (reachable : str → Prop) :
  (∀ url history, reachable url →
     ∃ p, page_url p = url
          ∧ serves server html_parser urljoin history p
          ∧ ∃ next, page_next p = Some next ∧ reachable next) →
  ∀ fuel url acc seen w,
    reachable url →
    walk server html_parser urljoin fuel (Some url) acc seen w = OutOfFuel.
Proof.
  intros Hsite fuel. induction fuel as [|fuel IH]; intros url acc seen w Hurl.
  - destruct (Hsite url (requests w) Hurl) as (p & <- & (Hne & _) & _).
    cbn [walk]. by rewrite Hne.
  - destruct (Hsite url (requests w) Hurl)
      as (p & <- & Hserves & next & Hnext & Hreach).
    destruct (walk_step server html_parser urljoin p acc seen w Hserves)
      as (w' & _ & ->).
    rewrite Hnext. by apply IH.
Qed.

(** X6. The walk keeps no record of the listing pages it has visited: on a
    site where every listing page reachable from the start has a next
    link to a reachable page (a page that names itself as next, say), the
    loop never ends, whatever the number of turns allowed. *)
Theorem pagination_cycle_never_ends
    (server : list str → str → reply) (html_parser : str → exn + PageElement)
    (urljoin : str → str → exn + str) (reachable : str → Prop)
    (listing_url : str) (fuel : nat) (w : World) :
  (∀ url history, reachable url →
     ∃ p, page_url p = url
          ∧ serves server html_parser urljoin history p
          ∧ ∃ next, page_next p = Some next ∧ reachable next) →
  reachable listing_url →
  scrape_suumo server html_parser urljoin fuel listing_url w = OutOfFuel.
Proof.
  intros Hsite Hstart. unfold scrape_suumo.
  by rewrite (walk_never_ends server html_parser urljoin reachable Hsite).
Qed.

Lemma pagination_cycle_never_ends_witness :
  scrape_suumo looping_server looping_parser sample_urljoin 1000 LISTING_1 world0
  = OutOfFuel.
Proof.
  refine (pagination_cycle_never_ends looping_server looping_parser
            sample_urljoin (fun url => url = LISTING_1) LISTING_1 1000 world0
            _ _).
  - intros url history ->. exists looping_page. split; [reflexivity|]. split.
    + split; [reflexivity|]. exists looping_html.
      split_and!; vm_compute; reflexivity.
    + exists LISTING_1. split; reflexivity.
  - reflexivity.
Defined.

(** ** One detail page *)

(** X7. A detail page whose fetch fails, be it on the network, on a status
    other than 200 or on an empty body, yields the row that is null
    everywhere but in its URL field; the parser is not called, one
    request is logged, and the run does not sleep before the next
    fetch. *)
Theorem failed_detail_fetch_row
    (server : list str → str → reply) (html_parser : str → exn + PageElement)
    (total idx : nat) (url : str) (w : World) :
  truthy (fetched server (requests w) url) = false →
  (visit server html_parser total idx url w).1 = placeholder url
  ∧ (∀ field, field ∈ COLUMNS → field ≠ C_url →
              getitem (visit server html_parser total idx url w).1 field
              = Some None)
  ∧ requests (visit server html_parser total idx url w).2 = requests w ++ [url]
  ∧ sleeps (visit server html_parser total idx url w).2 = sleeps w.
Proof.
  intros Hfail. rewrite <- fetch_html_fetched in Hfail.
  destruct (fetch_html_world server url w) as (Hreq & Hsl & _).
  assert (visit server html_parser total idx url w
          = (placeholder url, (fetch_html server url w).2)) as ->.
  { unfold visit. destruct (fetch_html server url w) as [[html|] w1]; [|done].
    cbn [fst truthy] in Hfail. cbv beta iota. by rewrite Hfail. }
  cbn [fst snd]. split_and!; try done.
  intros field ??. by apply getitem_placeholder_null.
Qed.

Lemma failed_detail_fetch_row_witness :
  ((visit down_server sample_parser 3 1 DETAIL_1 world0).1 = placeholder DETAIL_1
   ∧ (∀ field, field ∈ COLUMNS → field ≠ C_url →
               getitem (visit down_server sample_parser 3 1 DETAIL_1 world0).1 field
               = Some None)
   ∧ requests (visit down_server sample_parser 3 1 DETAIL_1 world0).2
     = requests world0 ++ [DETAIL_1]
   ∧ sleeps (visit down_server sample_parser 3 1 DETAIL_1 world0).2 = sleeps world0)
  ∧ (visit empty_body_server sample_parser 3 1 DETAIL_1 world0).1
    = placeholder DETAIL_1.
Proof.
  split.
  - refine (failed_detail_fetch_row down_server sample_parser 3 1 DETAIL_1 world0 _).
    reflexivity.
  - refine (proj1 (failed_detail_fetch_row empty_body_server sample_parser
                     3 1 DETAIL_1 world0 _)).
    reflexivity.
Defined.

(** X8. A detail page that is fetched with a body is handed to the parser:
    when the parser raises, the exception is caught, a warning naming the
    URL and the exception is printed and the row is the placeholder; when
    it returns a document, the row is the one extracted from it and
    nothing is printed. In both cases the run sleeps once unless the page
    is the last one. *)
Theorem fetched_detail_row
    (server : list str → str → reply) (html_parser : str → exn + PageElement)
    (total idx : nat) (url html : str) (w : World) :
  fetched server (requests w) url = Some html →
  nonempty html = true →
  match html_parser html with
  | inl exc =>
    (visit server html_parser total idx url w).1 = placeholder url
    ∧ console (visit server html_parser total idx url w).2
      = console w ++ [WarnParseFailed url exc]
  | inr soup =>
    (visit server html_parser total idx url w).1 = parse_detail_soup soup url
    ∧ console (visit server html_parser total idx url w).2 = console w
  end
  ∧ sleeps (visit server html_parser total idx url w).2
    = (sleeps w + if decide (idx < total)%nat then 1 else 0)%nat.
Proof.
  intros Hfetch Hhtml. unfold visit, parse_detail_page.
  rewrite (fetch_html_Some server _ _ _ Hfetch). cbv beta iota.
  rewrite Hhtml. cbn [negb].
  destruct (html_parser html) as [exc|soup];
    destruct (decide (idx < total)%nat);
    cbv beta iota; cbn [fst snd sleep print requested console sleeps];
    split_and!; done || lia.
Qed.

Lemma fetched_detail_row_witness :
  ((visit (sample_server second_listing_ok) sample_parser 3 1 DETAIL_1 world0).1
   = parse_detail_soup page_floors DETAIL_1
   ∧ console (visit (sample_server second_listing_ok) sample_parser
                    3 1 DETAIL_1 world0).2 = console world0)
  ∧ ((visit (sample_server second_listing_ok) sample_parser 3 3 DETAIL_3 world0).1
     = placeholder DETAIL_3
     ∧ console (visit (sample_server second_listing_ok) sample_parser
                      3 3 DETAIL_3 world0).2
       = console world0
         ++ [WarnParseFailed DETAIL_3 (Exception (u "parser failure"))]).
Proof.
  split.
  - refine (proj1 (fetched_detail_row (sample_server second_listing_ok)
                     sample_parser 3 1 DETAIL_1 detail_html_1 world0 _ _));
      reflexivity.
  - refine (proj1 (fetched_detail_row (sample_server second_listing_ok)
                     sample_parser 3 3 DETAIL_3 detail_html_3 world0 _ _));
      reflexivity.
Defined.

(** ** A listing page that does not parse *)

(** X9. Unlike a detail page, a listing page on which the parser raises
    aborts the run with the parser's exception, whether it is the first
    page or one reached through the next links of the pages before it:
    the run has then requested the pages walked and the failing page, and
    has printed nothing. *)
Theorem listing_parse_failure_aborts
    (server : list str → str → reply) (html_parser : str → exn + PageElement)
    (urljoin : str → str → exn + str)
    (listing_url failing_url html : str) (exc : exn)
    (pages : list listing_page) (w : World) (fuel : nat) :
  chain server html_parser urljoin (requests w) (Some listing_url) pages →
  next_after (Some listing_url) pages = Some failing_url →
  nonempty failing_url = true →
  fetched server (requests w ++ map page_url pages) failing_url = Some html →
  nonempty html = true →
  html_parser html = inl exc →
  (length pages < fuel)%nat →
  ∃ w', scrape_suumo server html_parser urljoin fuel listing_url w = Raised exc w'
        ∧ requests w' = requests w ++ map page_url pages ++ [failing_url]
        ∧ console w' = console w.
Proof.
  intros Hchain Hnext Hurl Hfetch Hhtml Hparse Hfuel.
  destruct (walk_chain_effects server html_parser urljoin pages
              (Some listing_url) [] ∅ w Hchain)
    as (w1 & seen' & Hreq & Hcon & _ & Hwalk).
  { intros x. by rewrite elem_of_empty, elem_of_nil. }
  exists (requested failing_url w1). split_and!.
  - unfold scrape_suumo.
    replace fuel with (length pages + S (fuel - length pages - 1))%nat by lia.
    rewrite Hwalk, Hnext. cbn [walk]. rewrite Hurl. cbn [negb].
    rewrite <- Hreq in Hfetch.
    rewrite (fetch_html_Some server _ _ _ Hfetch). rewrite Hhtml. cbn [negb].
    unfold extract_detail_urls. by rewrite Hparse.
  - cbn [requested requests]. by rewrite Hreq, <- app_assoc.
  - cbn [requested console]. exact Hcon.
Qed.

Lemma listing_parse_failure_aborts_witness :
  ∃ w', scrape_suumo (sample_server unparsable_listing) sample_parser
                     sample_urljoin 2 LISTING_1 world0
        = Raised (Exception (u "parser failure")) w'
        ∧ requests w' = requests world0 ++ map page_url (take 1 sample_pages)
                        ++ [LISTING_2]
        ∧ console w' = console world0.
Proof.
  refine (listing_parse_failure_aborts (sample_server unparsable_listing)
            sample_parser sample_urljoin LISTING_1 LISTING_2 detail_html_3
            (Exception (u "parser failure")) (take 1 sample_pages) world0 2
            _ _ _ _ _ _ _).
  - split; [reflexivity|]. split; [|exact I]. split; [reflexivity|].
    exists listing_html_1. split_and!; vm_compute; reflexivity.
  - reflexivity.
  - reflexivity.
  - vm_compute. reflexivity.
  - reflexivity.
  - vm_compute. reflexivity.
  - cbn. lia.
Defined.

(** * Further properties of the synonym table *)

(** ** Substrings *)

Lemma startswith_prefix p s : startswith p s = true ↔ ∃ rest, s = p ++ rest.
Proof.
  revert s. induction p as [|a p IH]; intros s; cbn [startswith].
  - split; [by exists s|done].
  - destruct s as [|b s].
    + split; [done|]. intros [rest Hrest]. discriminate Hrest.
    + rewrite andb_true_iff, N.eqb_eq, IH. split.
      * intros [-> [rest ->]]. by exists rest.
      * intros [rest [= -> ->]]. split; [done|]. by exists rest.
Qed.

(** [contains p s] is Python's [p in s]: [p] occurs in [s] as a block. *)
Lemma contains_infix p s :
  contains p s = true ↔ ∃ before after, s = before ++ p ++ after.
Proof.
  induction s as [|c s IH]; cbn [contains].
  - rewrite orb_false_r, startswith_prefix. split.
    + intros [rest ->]. by exists [], rest.
    + intros (before & after & Heq).
      destruct before; [by exists after|discriminate Heq].
  - rewrite orb_true_iff, startswith_prefix, IH. split.
    + intros [[rest ->]|(before & after & ->)].
      * by exists [], rest.
      * by exists (c :: before), after.
    + intros (before & after & Heq). destruct before as [|c' before].
      * left. by exists after.
      * right. injection Heq as -> ->. by exists before, after.
Qed.

Lemma contains_trans a b c :
  contains a b = true → contains b c = true → contains a c = true.
Proof.
  rewrite !contains_infix.
  intros (b1 & b2 & ->) (c1 & c2 & ->).
  exists (c1 ++ b1), (b2 ++ c2). by rewrite <- !app_assoc.
Qed.

(** ** Entries that never win *)

(** The entry the scan stops at comes no later in the table than any
    entry whose key occurs in its own key. *)
Lemma first_match_before (items : list (str * str)) (nl : str)
    (i : nat) (ki mi key mapped : str) :
  first_match items nl = Some (key, mapped) →
  items !! i = Some (ki, mi) →
  contains ki key = true →
  ∃ n, (n ≤ i)%nat ∧ items !! n = Some (key, mapped).
Proof.
  intros (n & Hn & Hc & Hfirst)%first_match_Some Hi Hsub.
  exists n. split; [|done].
  destruct (decide (n ≤ i)%nat) as [|Hgt]; [done|].
  pose proof (contains_trans _ _ _ Hsub Hc) as Hki.
  rewrite (Hfirst i ki mi) in Hki; [done|lia|done].
Qed.

(** X10. Three entries of [LABEL_MAP] never win: every label that contains
    販売価格, 引渡し or 建物構造 also contains the key 価格, 引渡 or 構造
    declared before it, at which the scan stops first. *)
Theorem shadowed_synonyms_never_win (nl key mapped : str) :
  first_match LABEL_MAP nl = Some (key, mapped) →
  key ≠ u "販売価格" ∧ key ≠ u "引渡し" ∧ key ≠ u "建物構造".
Proof.
  intros Hm. split_and!; intros ->.
  - destruct (first_match_before LABEL_MAP nl 1 (u "価格") (u "価格") _ _ Hm)
      as (n & Hn & Hlook); [reflexivity|reflexivity|].
    destruct n as [|[|n]]; [discriminate Hlook|discriminate Hlook|lia].
  - destruct (first_match_before LABEL_MAP nl 15 (u "引渡") (u "引渡し時期") _ _ Hm)
      as (n & Hn & Hlook); [reflexivity|reflexivity|].
    do 16 (destruct n as [|n]; [discriminate Hlook|]). lia.
  - destruct (first_match_before LABEL_MAP nl 21 (u "構造")
                (u "建物構造（RC / SRC 等）") _ _ Hm)
      as (n & Hn & Hlook); [reflexivity|reflexivity|].
    do 22 (destruct n as [|n]; [discriminate Hlook|]). lia.
Qed.

Lemma shadowed_synonyms_never_win_witness :
  u "価格" ≠ u "販売価格" ∧ u "価格" ≠ u "引渡し" ∧ u "価格" ≠ u "建物構造".
Proof.
  apply (shadowed_synonyms_never_win (u "販売価格") (u "価格") (u "価格")).
  vm_compute. reflexivity.
Defined.

(** * Further properties of the listing pages *)

(** ** Detail links *)

Lemma is_detail_href_filter (href : str) :
  negb (nonempty href) = false →
  negb (contains (u "/jj/bukken/") href) && negb (contains (u "/ms/") href)
    && negb (contains (u "/bukken/") href)
  = negb (is_detail_href href).
Proof.
  intros Hne. unfold is_detail_href.
  destruct (nonempty href); [|discriminate Hne]. cbn [andb].
  assert (contains (u "/jj/bukken/") href = true →
          contains (u "/bukken/") href = true) as Hsub.
  { apply contains_trans. reflexivity. }
  destruct (contains (u "/jj/bukken/") href);
    destruct (contains (u "/ms/") href);
    destruct (contains (u "/bukken/") href); try done.
  all: by discriminate Hsub.
Qed.

(** One turn of the loop over the anchors. *)
Lemma detail_links_cons (urljoin : str → str → exn + str)
    (anchor : PageElement) (anchors : list PageElement)
    (base : str) (urls : list str) (seen : gset str) :
  detail_links urljoin (anchor :: anchors) base urls seen
  = match get_attr (u "href") anchor with
    | Some href =>
      if is_detail_href href
      then match urljoin base href with
           | inl e => inl e
           | inr full_url =>
             if decide (full_url ∈ seen)
             then detail_links urljoin anchors base urls seen
             else detail_links urljoin anchors base (urls ++ [full_url])
                               ({[ full_url ]} ∪ seen)
           end
      else detail_links urljoin anchors base urls seen
    | None => detail_links urljoin anchors base urls seen
    end.
Proof.
  cbn [detail_links]. destruct (get_attr (u "href") anchor) as [href|]; [|done].
  destruct (negb (nonempty href)) eqn:Hne.
  - unfold is_detail_href. apply negb_true_iff in Hne. by rewrite Hne.
  - rewrite (is_detail_href_filter href Hne).
    by destruct (is_detail_href href).
Qed.

Lemma detail_links_joined (urljoin : str → str → exn + str)
    (anchors : list PageElement) (base : str) (joined urls : list str)
    (seen : gset str) :
  (∀ x, x ∈ seen ↔ x ∈ urls) →
  Forall2 (fun href url => urljoin base href = inr url)
          (List.filter is_detail_href (omap (get_attr (u "href")) anchors))
          joined →
  detail_links urljoin anchors base urls seen
  = inr (fold_left append_new joined urls).
Proof.
  revert joined urls seen. induction anchors as [|anchor anchors IH];
    intros joined urls seen Hinv Hjoined.
  { cbn in Hjoined. apply Forall2_nil_inv_l in Hjoined as ->. done. }
  rewrite detail_links_cons. cbn [omap list_omap] in Hjoined.
  destruct (get_attr (u "href") anchor) as [href|]; [|by apply IH].
  cbn [List.filter] in Hjoined.
  destruct (is_detail_href href); [|by apply IH].
  apply Forall2_cons_inv_l in Hjoined as (url & joined' & Hurl & Hrest & ->).
  rewrite Hurl. cbn [fold_left]. unfold append_new at 2.
  destruct (decide (url ∈ seen)) as [Hin|Hnin].
  - rewrite decide_True by (by apply Hinv). by apply IH.
  - rewrite decide_False by (by rewrite <- Hinv). apply IH; [|done].
    intros x. rewrite elem_of_union, elem_of_singleton, elem_of_app,
      list_elem_of_singleton, Hinv. tauto.
Qed.

Lemma detail_links_raises (urljoin : str → str → exn + str)
    (anchors : list PageElement) (base : str) (before after : list str)
    (href : str) (exc : exn) (urls : list str) (seen : gset str) :
  List.filter is_detail_href (omap (get_attr (u "href")) anchors)
  = before ++ href :: after →
  Forall (fun h => ∃ url, urljoin base h = inr url) before →
  urljoin base href = inl exc →
  detail_links urljoin anchors base urls seen = inl exc.
Proof.
  revert before urls seen. induction anchors as [|anchor anchors IH];
    intros before urls seen Hsplit Hbefore Hraise.
  { cbn in Hsplit. by destruct before. }
  rewrite detail_links_cons. cbn [omap list_omap] in Hsplit.
  destruct (get_attr (u "href") anchor) as [href0|]; [|by eapply IH].
  cbn [List.filter] in Hsplit.
  destruct (is_detail_href href0); [|by eapply IH].
  destruct before as [|h before].
  - injection Hsplit as -> _. by rewrite Hraise.
  - injection Hsplit as -> Hsplit.
    apply Forall_cons in Hbefore as [[url Hurl] Hbefore].
    rewrite Hurl. destruct (decide (url ∈ seen)); by eapply IH.
Qed.

(** X11. The detail links of a listing page are the hrefs of its anchors
    that are not empty and contain "/ms/" or "/bukken/" (the pattern
    "/jj/bukken/" adds nothing to these two), in document order. When
    [urljoin] joins every one of them to the URL of the page, the function
    returns the joined URLs, each kept once at its first occurrence. When
    [urljoin] raises on one of them, the links before it having been
    joined, the function raises that exception and returns nothing. *)
Theorem extract_detail_urls_first_occurrences
    (html_parser : str → exn + PageElement) (urljoin : str → str → exn + str)
    (listing_html base_url : str) (soup : PageElement) :
  html_parser listing_html = inr soup →
  (∀ joined : list str,
     Forall2 (fun href url => urljoin base_url href = inr url)
             (List.filter is_detail_href (anchor_hrefs soup)) joined →
     extract_detail_urls html_parser urljoin listing_html base_url
     = inr (dedup_first joined)
     ∧ NoDup (dedup_first joined))
  ∧ (∀ (before after : list str) (href : str) (exc : exn),
       List.filter is_detail_href (anchor_hrefs soup) = before ++ href :: after →
       Forall (fun h => ∃ url, urljoin base_url h = inr url) before →
       urljoin base_url href = inl exc →
       extract_detail_urls html_parser urljoin listing_html base_url = inl exc).
Proof.
  intros Hparse. unfold extract_detail_urls. rewrite Hparse. split.
  - intros joined Hjoined. split; [|apply NoDup_dedup_first].
    rewrite (detail_links_joined urljoin _ _ joined [] ∅), fold_append_new_nil;
      [done| |exact Hjoined].
    intros x. by rewrite elem_of_empty, elem_of_nil.
  - intros before after href exc Hsplit Hbefore Hraise.
    by apply (detail_links_raises urljoin _ _ before after href).
Qed.

Lemma extract_detail_urls_first_occurrences_witness :
  extract_detail_urls listing_parser_3 sample_urljoin [] LISTING_1
  = inr [DETAIL_1; u "https://suumo.jp/jj/bukken/2/"]
  ∧ extract_detail_urls listing_parser_4 sample_urljoin [] LISTING_1
    = inl (Exception (u "Invalid IPv6 URL")).
Proof.
  split.
  - destruct (extract_detail_urls_first_occurrences listing_parser_3
                sample_urljoin [] LISTING_1 listing_soup_3 eq_refl)
      as [Hjoined _].
    destruct (Hjoined [DETAIL_1; u "https://suumo.jp/jj/bukken/2/"; DETAIL_1])
      as [Hurls _].
    + replace (List.filter is_detail_href (anchor_hrefs listing_soup_3))
        with [u "/ms/1/"; u "/jj/bukken/2/"; u "/ms/1/"]
        by (vm_compute; reflexivity).
      repeat (constructor; [vm_compute; reflexivity|]). constructor.
    + rewrite Hurls. vm_compute. reflexivity.
  - destruct (extract_detail_urls_first_occurrences listing_parser_4
                sample_urljoin [] LISTING_1 listing_soup_4 eq_refl)
      as [_ Hraises].
    apply (Hraises [u "/ms/1/"] [u "/ms/3/"] (u "//[/ms/2/")).
    + vm_compute. reflexivity.
    + constructor; [|constructor]. exists DETAIL_1. vm_compute. reflexivity.
    + vm_compute. reflexivity.
Defined.

(** * Further properties of text normalization *)

Lemma single_spaced_weaken s : single_spaced true s = true → single_spaced false s = true.
Proof.
  destruct s as [|c s]; [done|]. cbn [single_spaced].
  by destruct (isspace c).
Qed.

Lemma single_spaced_collapse b s : single_spaced b (collapse_ws b s) = true.
Proof.
  revert b. induction s as [|c s IH]; intros b; [done|].
  cbn [collapse_ws]. destruct (isspace c) eqn:Hc.
  - destruct b; [apply IH|]. cbn [single_spaced].
    change (isspace 32) with true. cbn. apply IH.
  - cbn [single_spaced]. rewrite Hc. apply IH.
Qed.

Lemma collapse_single_spaced b s : single_spaced b s = true → collapse_ws b s = s.
Proof.
  revert b. induction s as [|c s IH]; intros b; [done|].
  cbn [single_spaced collapse_ws]. destruct (isspace c).
  - rewrite !andb_true_iff, negb_true_iff, N.eqb_eq.
    intros [[-> ->] Hs]. by rewrite (IH true Hs).
  - intros Hs. by rewrite (IH false Hs).
Qed.

Lemma single_spaced_suffix b x y :
  single_spaced b (x ++ y) = true → single_spaced false y = true.
Proof.
  revert b. induction x as [|c x IH]; intros b; cbn [app].
  - destruct b; [apply single_spaced_weaken|done].
  - cbn [single_spaced]. destruct (isspace c); [|apply IH].
    rewrite !andb_true_iff. intros [_ Hs]. by eapply IH.
Qed.

Lemma single_spaced_prefix b x y :
  single_spaced b (x ++ y) = true → single_spaced b x = true.
Proof.
  revert b. induction x as [|c x IH]; intros b; [done|]. cbn [app single_spaced].
  destruct (isspace c); [|apply IH].
  rewrite !andb_true_iff. intros [Hc Hs]. split; [done|]. by eapply IH.
Qed.

Lemma lstrip_suffix s : ∃ dropped, s = dropped ++ lstrip s.
Proof.
  induction s as [|c s [dropped IH]]; [by exists []|]. cbn [lstrip].
  destruct (isspace c); [|by exists []].
  exists (c :: dropped). cbn [app]. by rewrite <- IH.
Qed.

Lemma no_leading_space_lstrip s : no_leading_space (lstrip s) = true.
Proof.
  induction s as [|c s IH]; [done|]. cbn [lstrip].
  destruct (isspace c) eqn:Hc; [done|]. cbn [no_leading_space]. by rewrite Hc.
Qed.

Lemma lstrip_no_leading_space s : no_leading_space s = true → lstrip s = s.
Proof.
  destruct s as [|c s]; [done|]. cbn [no_leading_space lstrip].
  by intros ->%negb_true_iff.
Qed.

(** [strip] keeps a block of its argument. *)
Lemma strip_infix s : ∃ before after, s = before ++ strip s ++ after.
Proof.
  unfold strip. destruct (lstrip_suffix s) as [before Hs].
  destruct (lstrip_suffix (reverse (lstrip s))) as [after Hr].
  exists before, (reverse after). rewrite Hs at 1. f_equal.
  rewrite <- reverse_app, <- Hr. by rewrite reverse_involutive.
Qed.

Lemma no_leading_space_prefix x y :
  no_leading_space (x ++ y) = true → no_leading_space x = true.
Proof. by destruct x. Qed.

Lemma normalized_strip s : single_spaced false s = true → normalized (strip s).
Proof.
  intros Hs. split_and!.
  - destruct (strip_infix s) as (before & after & Heq). rewrite Heq in Hs.
    by eapply single_spaced_prefix, single_spaced_suffix.
  - unfold strip.
    destruct (lstrip_suffix (reverse (lstrip s))) as [after Hr].
    apply (no_leading_space_prefix _ (reverse after)).
    rewrite <- reverse_app, <- Hr, reverse_involutive.
    apply no_leading_space_lstrip.
  - unfold strip. rewrite reverse_involutive. apply no_leading_space_lstrip.
Qed.

Lemma strip_normalized s : normalized s → strip s = s.
Proof.
  intros (_ & Hlead & Htrail). unfold strip.
  rewrite (lstrip_no_leading_space s Hlead).
  rewrite (lstrip_no_leading_space _ Htrail). apply reverse_involutive.
Qed.

Lemma normalize_text_fixpoint (text : str) :
  normalized (normalize_text text)
  ∧ normalize_text (normalize_text text) = normalize_text text
  ∧ ∀ s, normalized s → normalize_text s = s.
Proof.
  assert (∀ s, normalized s → normalize_text s = s) as Hfix.
  { intros s Hs. unfold normalize_text.
    rewrite (collapse_single_spaced false s) by apply Hs.
    by apply strip_normalized. }
  assert (normalized (normalize_text text)) as Hnorm.
  { apply normalized_strip, single_spaced_collapse. }
  split_and!; [done|by apply Hfix|done].
Qed.

(** X13. [normalize_text] returns trimmed text in which every whitespace is a
    single space standing alone, and leaves such text as it is: it is
    idempotent. *)
Theorem normalize_text_idempotent (text : str) :
  normalized (normalize_text text)
  ∧ normalize_text (normalize_text text) = normalize_text text
  ∧ ∀ s, normalized s → normalize_text s = s.
Proof. apply normalize_text_fixpoint. Qed.

Lemma normalize_text_idempotent_witness :
  normalize_text (u "三田 ハウス") = u "三田 ハウス".
Proof.
  apply (proj2 (proj2 (normalize_text_idempotent []))).
  split_and!; reflexivity.
Defined.

(** X14. The labels and values that [extract_pairs] returns are normalized, so
    the second normalization of the label in the pair loop changes
    nothing. *)
Theorem extract_pairs_normalized (soup : PageElement) (label value : str) :
  (label, value) ∈ extract_pairs soup →
  normalize_text label = label ∧ normalize_text value = value
  ∧ nonempty label = true ∧ nonempty value = true.
Proof.
  intros Hin.
  pose proof (proj1 (Forall_forall _ _) (extract_pairs_nonempty soup) _ Hin)
    as [Hl Hv]. cbn [fst snd] in Hl, Hv.
  assert (∃ a b, label = node_text a ∧ value = node_text b) as (a & b & -> & ->).
  { unfold extract_pairs in Hin. apply elem_of_app in Hin as [Hin|Hin].
    - apply elem_of_flat_map in Hin as (dl & _ & Hin). unfold dl_pairs in Hin.
      case_decide; [|by apply elem_of_nil in Hin].
      apply elem_of_flat_map in Hin as ([dt dd] & _ & Hin).
      destruct (nonempty (node_text dt) && nonempty (node_text dd));
        [|by apply elem_of_nil in Hin].
      apply list_elem_of_singleton in Hin as [= -> ->]. by exists dt, dd.
    - apply elem_of_flat_map in Hin as (table & _ & Hin). unfold table_pairs in Hin.
      apply elem_of_flat_map in Hin as (tr & _ & Hin). unfold tr_pairs in Hin.
      destruct (find (u "th") tr) as [th|]; [|by apply elem_of_nil in Hin].
      destruct (find (u "td") tr) as [td|]; [|by apply elem_of_nil in Hin].
      destruct (nonempty (node_text th) && nonempty (node_text td));
        [|by apply elem_of_nil in Hin].
      apply list_elem_of_singleton in Hin as [= -> ->]. by exists th, td. }
  unfold node_text in *.
  split_and!; try done;
    apply (proj1 (proj2 (normalize_text_fixpoint _))).
Qed.

Lemma extract_pairs_normalized_witness :
  normalize_text (u "所在階") = u "所在階" ∧ normalize_text (u "3階") = u "3階"
  ∧ nonempty (u "所在階") = true ∧ nonempty (u "3階") = true.
Proof.
  apply (extract_pairs_normalized page_floors).
  apply (bool_decide_unpack _). vm_compute. exact I.
Defined.

(** * Further properties of combined fields *)

Lemma join_cons_app sep cur v rest :
  join sep ((cur ++ sep ++ v) :: rest) = join sep (cur :: v :: rest).
Proof.
  destruct rest as [|r rest]; cbn [join]; by rewrite <- ?app_assoc.
Qed.

Lemma update_combined_field_empty (data : row) key v :
  nonempty v = false → update_combined_field data key v = data.
Proof. unfold update_combined_field. by intros ->. Qed.

Lemma update_combined_field_first (data : row) key v :
  nonempty v = true →
  match getitem data key with
  | Some (Some old) => nonempty old = false
  | _ => True
  end →
  update_combined_field data key v = setitem data key (Some v).
Proof.
  unfold update_combined_field. intros -> Hold. cbn [negb].
  destruct (getitem data key) as [[old|]|]; [|done..]. by rewrite Hold.
Qed.

Lemma update_combined_field_next (data : row) key cur v :
  nonempty v = true →
  getitem data key = Some (Some cur) → nonempty cur = true →
  update_combined_field data key v = setitem data key (Some (cur ++ SEP ++ v)).
Proof. unfold update_combined_field. by intros -> -> ->. Qed.

Lemma update_combined_field_appends key values (d : row) cur :
  getitem d key = Some (Some cur) → nonempty cur = true →
  getitem (fold_left (fun d v => update_combined_field d key v) values d) key
  = Some (Some (join SEP (cur :: List.filter nonempty values))).
Proof.
  revert d cur. induction values as [|v values IH]; intros d cur Hd Hcur; [done|].
  cbn [fold_left List.filter].
  destruct (nonempty v) eqn:Hv.
  - rewrite (update_combined_field_next d key cur v) by done.
    rewrite <- join_cons_app. apply IH; [apply getitem_setitem_eq|].
    by destruct cur.
  - rewrite update_combined_field_empty by done. by apply IH.
Qed.

(** X15. [update_combined_field], applied to a field that is null, missing or
    empty with one value after the other, leaves in the field the
    non-empty values joined with " / ", and leaves the row as it is when
    every value is empty. *)
Theorem update_combined_field_joins (data : row) (key : str) (values : list str) :
  match getitem data key with
  | Some (Some old) => nonempty old = false
  | _ => True
  end →
  let result := fold_left (fun d v => update_combined_field d key v) values data in
  match List.filter nonempty values with
  | [] => result = data
  | _ :: _ => getitem result key
              = Some (Some (join SEP (List.filter nonempty values)))
  end.
Proof.
  intros Hold. cbn zeta. revert data Hold.
  induction values as [|v values IH]; intros data Hold; [done|].
  cbn [fold_left List.filter].
  destruct (nonempty v) eqn:Hv.
  - rewrite update_combined_field_first by done.
    apply update_combined_field_appends; [apply getitem_setitem_eq|done].
  - rewrite update_combined_field_empty by done. by apply IH.
Qed.

Lemma update_combined_field_joins_witness :
  getitem (fold_left (fun d v => update_combined_field d C_floor v)
                     [u "3階"; []; u "10階建"] empty_row) C_floor
  = Some (Some (join SEP (List.filter nonempty [u "3階"; []; u "10階建"]))).
Proof.
  apply (update_combined_field_joins empty_row C_floor [u "3階"; []; u "10階建"]).
  exact I.
Defined.

(** * Further properties of pair extraction *)

(** ** Description lists *)

(** X16. A description list whose terms and descriptions differ in number
    contributes no pair; otherwise its pairs are those of a term and the
    description at the same position, for the positions where both texts
    are not empty. *)
Theorem dl_pairs_positional (dl : PageElement) (pair : str * str) :
  pair ∈ dl_pairs dl ↔
  length (find_all (u "dt") dl) = length (find_all (u "dd") dl)
  ∧ ∃ i dt dd,
      find_all (u "dt") dl !! i = Some dt
      ∧ find_all (u "dd") dl !! i = Some dd
      ∧ pair = (node_text dt, node_text dd)
      ∧ nonempty pair.1 = true ∧ nonempty pair.2 = true.
Proof.
  unfold dl_pairs. case_decide as Hlen.
  - rewrite elem_of_flat_map. split.
    + intros ([dt dd] & Hzip & Hin). split; [done|].
      apply elem_of_lookup_zip_with in Hzip as (i & dt' & dd' & [= <- <-] & Hdt & Hdd).
      destruct (nonempty (node_text dt)) eqn:Hl,
               (nonempty (node_text dd)) eqn:Hv; cbn [andb] in Hin;
        try by apply elem_of_nil in Hin.
      apply list_elem_of_singleton in Hin as ->. by exists i, dt, dd.
    + intros (_ & i & dt & dd & Hdt & Hdd & -> & Hl & Hv). cbn [fst snd] in Hl, Hv.
      exists (dt, dd). split.
      * apply elem_of_lookup_zip_with. by exists i, dt, dd.
      * rewrite Hl, Hv. by left.
  - split; [by intros ?%elem_of_nil|]. by intros [? _].
Qed.

Lemma dl_pairs_positional_witness :
  (u "向き", u "南") ∈ dl_pairs dl_even ∧ dl_pairs dl_odd = [].
Proof.
  split.
  - apply (proj2 (dl_pairs_positional dl_even (u "向き", u "南"))).
    split; [reflexivity|]. exists 1%nat, (cell "dt" "向き"), (cell "dd" "南").
    split_and!; reflexivity.
  - reflexivity.
Defined.

(** ** Nested tables *)

Lemma PageElement_children_ind (P : PageElement → Prop) :
  (∀ s, P (NavigableString s)) →
  (∀ s, P (Comment s)) →
  (∀ name attrs contents, Forall P contents → P (Tag name attrs contents)) →
  ∀ e, P e.
Proof.
  intros Hstring Hcomment Htag. fix IH 1. intros [s|s|name attrs contents].
  - apply Hstring.
  - apply Hcomment.
  - apply Htag. induction contents as [|c contents IHc]; constructor.
    + apply IH.
    + apply IHc.
Qed.

(** In document order an element is followed by its own descendants. *)
Lemma descendants_split e d :
  d ∈ descendants e →
  ∃ before after, descendants e = before ++ d :: descendants d ++ after.
Proof.
  revert d. induction e as [s|s|name attrs contents IH]
    using PageElement_children_ind; intros d; cbn [descendants];
    [by intros ?%elem_of_nil..|].
  induction IH as [|c contents Hc _ IHcontents]; cbn [flat_map];
    [by intros ?%elem_of_nil|].
  rewrite elem_of_app, elem_of_cons. intros [[->|Hd]|Hd].
  - exists [], (flat_map (fun c => c :: descendants c) contents). done.
  - destruct (Hc d Hd) as (before & after & ->).
    exists (c :: before), (after ++ flat_map (fun c => c :: descendants c) contents).
    cbn [app]. repeat (rewrite <- app_assoc; cbn [app]). done.
  - destruct (IHcontents Hd) as (before & after & ->).
    exists (c :: descendants c ++ before), after.
    cbn [app]. repeat (rewrite <- app_assoc; cbn [app]). done.
Qed.

Lemma descendants_trans e d x :
  d ∈ descendants e → x ∈ descendants d → x ∈ descendants e.
Proof.
  intros (before & after & ->)%descendants_split Hx.
  rewrite elem_of_app, elem_of_cons, elem_of_app. tauto.
Qed.

Lemma flat_map_filter_split {A B} (f : A → list B) (P : A → bool)
    (l before after : list A) (x : A) :
  l = before ++ x :: after → P x = true →
  flat_map f (List.filter P l)
  = flat_map f (List.filter P before) ++ f x ++ flat_map f (List.filter P after).
Proof.
  intros -> Hx. rewrite List.filter_app. cbn [List.filter]. rewrite Hx.
  rewrite flat_map_app. done.
Qed.

(** X17. A table inside a table is visited twice: once for its own sake and
    once through the rows of the table around it, so each pair of its
    rows is extracted twice, the second time after every other pair of
    the outer table. *)
Theorem nested_table_rows_twice
    (soup outer inner tr : PageElement) (pair : str * str) :
  outer ∈ descendants soup → is_tag (u "table") outer = true →
  inner ∈ descendants outer → is_tag (u "table") inner = true →
  tr ∈ find_all (u "tr") inner →
  pair ∈ tr_pairs tr →
  ∃ l1 l2 l3,
    extract_pairs soup = l1 ++ table_pairs outer ++ l2 ++ table_pairs inner ++ l3
    ∧ pair ∈ table_pairs outer
    ∧ pair ∈ table_pairs inner.
Proof.
  intros Houter Houter_tag Hinner Hinner_tag Htr Hpair.
  destruct (descendants_split _ _ Houter) as (before & after & Hsoup).
  destruct (descendants_split _ _ Hinner) as (before' & after' & Houter').
  assert (pair ∈ table_pairs inner) as Hin_inner.
  { unfold table_pairs. apply elem_of_flat_map. by exists tr. }
  assert (pair ∈ table_pairs outer) as Hin_outer.
  { unfold table_pairs. apply elem_of_flat_map. exists tr. split; [|done].
    unfold find_all in *. cbn [select] in *.
    apply elem_of_bool_filter in Htr as [Htr Htag].
    apply elem_of_bool_filter. split; [|done]. by eapply descendants_trans. }
  exists (flat_map dl_pairs (select (sel_simple (sel_type (u "dl"))) soup)
          ++ flat_map table_pairs (List.filter (is_tag (u "table")) before)),
         (flat_map table_pairs (List.filter (is_tag (u "table")) before')),
         (flat_map table_pairs
            (List.filter (is_tag (u "table")) (descendants inner ++ after' ++ after))).
  split; [|done]. unfold extract_pairs. rewrite <- app_assoc. f_equal.
  change (select (sel_simple (sel_type (u "table"))) soup)
    with (List.filter (is_tag (u "table")) (descendants soup)).
  rewrite (flat_map_filter_split table_pairs _ _ before
             (descendants outer ++ after) outer Hsoup Houter_tag).
  do 2 f_equal.
  apply (flat_map_filter_split table_pairs _ _ before'
           (descendants inner ++ after' ++ after) inner); [|done].
  rewrite Houter'. rewrite <- app_assoc. cbn [app]. by rewrite <- app_assoc.
Qed.

Lemma nested_table_rows_twice_witness :
  ∃ l1 l2 l3,
    extract_pairs (document [outer_table])
    = l1 ++ table_pairs outer_table ++ l2 ++ table_pairs inner_table ++ l3
    ∧ (u "価格", u "3980万円") ∈ table_pairs outer_table
    ∧ (u "価格", u "3980万円") ∈ table_pairs inner_table.
Proof.
  refine (nested_table_rows_twice (document [outer_table]) outer_table
            inner_table (labelled_row "価格" "3980万円")
            (u "価格", u "3980万円") _ _ _ _ _ _).
  - apply list_elem_of_In. vm_compute. auto.
  - reflexivity.
  - apply list_elem_of_In. vm_compute. auto.
  - reflexivity.
  - apply list_elem_of_In. vm_compute. auto.
  - apply list_elem_of_In. vm_compute. auto.
Defined.
